(** * DraftTreeOperations: tree surgery on a block map

    A shallow embedding of [DraftTreeOperations.js] (Draft.js): the five
    operations [updateParentChild], [updateSibling], [replaceParentChild],
    [createNewParent] and [updateAsSiblingsChild] over an Immutable.js
    [OrderedMap] of [ContentBlockNode] records, together with the
    properties the specification states about them.

    Modelling choices, all taken from the source:
    - a block map is an association list in iteration order, with the
      [get]/[set]/[merge]/[concat]/[takeUntil]/[skipUntil]/[slice] operations
      of Immutable.js' [OrderedMap];
    - the [children] of a node are an Immutable.js [List] of keys, with
      [splice], [get], [set], [delete], [indexOf] and [count], negative
      indices wrapping the way Immutable.js wraps them;
    - the staging object [newBlocks = {}] is a JavaScript object: assigning a
      property that already exists overwrites it; an assignment to the name
      [__proto__] adds no property, it replaces the prototype of the object,
      and an object with the property [@@__IMMUTABLE_ITERABLE__@@] is not
      read by [merge] as a plain object: in both cases the staged nodes are
      not written, which is the outcome [SpecialProperty];
    - [invariant(cond, msg)] throws, which is modelled by the error
      [InvariantViolation msg]; calling a method on [undefined] throws a
      [TypeError];
    - [generateRandomKey()] is outside of the sources: the key it returns is
      an argument of [createNewParent];
    - [__DEV__] and [DraftTreeInvariants.isValidTree] are outside of the
      sources: they are variables of the section that defines the two
      composite operations. *)

From Stdlib Require Import String List ZArith Lia Bool Permutation.
Import ListNotations.
Local Open Scope string_scope.
Local Open Scope list_scope.
Local Open Scope Z_scope.

(** ** Errors *)

(** [SpecialProperty] is no exception of its own.  It stands for a call
    that staged a node under a property name that is not an ordinary one
    (see [assign]): the call does not return the collection with the staged
    nodes written; it throws, or returns a collection with entries that are
    no nodes, as the internals of Immutable.js decide. *)
Inductive error : Type :=
| InvariantViolation (msg : string)
| TypeError
| SpecialProperty.

Inductive result (A : Type) : Type :=
| Ok (a : A)
| Err (e : error).

Arguments Ok {A} a.
Arguments Err {A} e.

Definition bind {A B : Type} (r : result A) (f : A -> result B) : result B :=
  match r with
  | Ok a => f a
  | Err e => Err e
  end.

Notation "x <- r ;; k" := (bind r (fun x => k))
  (at level 61, r at next level, right associativity).
Notation "' p <- r ;; k" := (bind r (fun x => let p := x in k))
  (at level 61, p pattern, r at next level, right associativity).

(** [invariant(cond, msg)] of fbjs. *)
Definition invariant (cond : bool) (msg : string) : result unit :=
  if cond then Ok tt else Err (InvariantViolation msg).

(** A method call on the result of a lookup: [undefined.merge(...)] is a
    [TypeError]. *)
Definition deref {A : Type} (o : option A) : result A :=
  match o with
  | Some a => Ok a
  | None => Err TypeError
  end.

(** A failure of [invariant], whatever its message. *)
Definition isPreconditionError {A : Type} (r : result A) : Prop :=
  exists msg, r = Err (InvariantViolation msg).

(** ** Nodes *)

Definition Key : Type := string.

(** Modelled from the spec: the record [ContentBlockNode] is required by the
    source but not part of it.  The fields are the ones the spec lists
    (key, text, depth, type, parent, prevSibling, nextSibling, children);
    [null] is [None]. *)
Record ContentBlockNode : Type := mkNode {
  key : Key;
  text : string;
  depth : Z;
  type : string;
  parent : option Key;
  prevSibling : option Key;
  nextSibling : option Key;
  children : list Key
}.

Definition getKey (b : ContentBlockNode) : Key := key b.
Definition getText (b : ContentBlockNode) : string := text b.
Definition getChildKeys (b : ContentBlockNode) : list Key := children b.
Definition getParentKey (b : ContentBlockNode) : option Key := parent b.
Definition getPrevSiblingKey (b : ContentBlockNode) : option Key := prevSibling b.
Definition getNextSiblingKey (b : ContentBlockNode) : option Key := nextSibling b.

(** [node.merge({children: c})] and the like: copy with one field changed. *)
Definition merge_children (b : ContentBlockNode) (c : list Key) : ContentBlockNode :=
  mkNode (key b) (text b) (depth b) (type b)
         (parent b) (prevSibling b) (nextSibling b) c.

Definition merge_parent (b : ContentBlockNode) (p : option Key) : ContentBlockNode :=
  mkNode (key b) (text b) (depth b) (type b)
         p (prevSibling b) (nextSibling b) (children b).

Definition merge_prevSibling (b : ContentBlockNode) (p : option Key) : ContentBlockNode :=
  mkNode (key b) (text b) (depth b) (type b)
         (parent b) p (nextSibling b) (children b).

Definition merge_nextSibling (b : ContentBlockNode) (n : option Key) : ContentBlockNode :=
  mkNode (key b) (text b) (depth b) (type b)
         (parent b) (prevSibling b) n (children b).

(** [child.merge({parent: p, prevSibling: a, nextSibling: b})]. *)
Definition merge_links (b : ContentBlockNode) (p a n : option Key) : ContentBlockNode :=
  mkNode (key b) (text b) (depth b) (type b) p a n (children b).

(** Modelled from the spec: [new ContentBlockNode({key, text, depth, type,
    children})]; the constructor is not part of the sources, the fields that
    are not given (parent and siblings) start as [null]. *)
Definition newContentBlockNode (k : Key) (t : string) (d : Z) (ty : string)
    (c : list Key) : ContentBlockNode :=
  mkNode k t d ty None None None c.

(** ** Immutable.js [List] of keys *)

Definition count (l : list Key) : Z := Z.of_nat (length l).

(** [wrapIndex]: a negative index counts from the end. *)
Definition wrapIndex (l : list Key) (index : Z) : Z :=
  if index <? 0 then count l + index else index.

(** [resolveBegin] of a slice or a splice. *)
Definition resolveBegin (begin size : Z) : Z :=
  if begin <? 0 then Z.max 0 (size + begin) else Z.min size begin.

(** [list.get(index)]: [undefined] outside of the list. *)
Definition List_get (l : list Key) (index : Z) : option Key :=
  let i := wrapIndex l index in
  if (0 <=? i) && (i <? count l) then nth_error l (Z.to_nat i) else None.

(** [list.has(index)]. *)
Definition List_has (l : list Key) (index : Z) : bool :=
  let i := wrapIndex l index in
  (0 <=? i) && (i <? count l).

(** [list.splice(index, 0, value)]. *)
Definition List_splice_insert (l : list Key) (index : Z) (value : Key) : list Key :=
  let i := Z.to_nat (resolveBegin index (count l)) in
  firstn i l ++ value :: skipn i l.

(** [list.splice(index, 1)]. *)
Definition List_splice_remove (l : list Key) (index : Z) : list Key :=
  let i := Z.to_nat (resolveBegin index (count l)) in
  firstn i l ++ skipn (S i) l.

Fixpoint replace_nth (l : list Key) (i : nat) (value : Key) : list Key :=
  match l, i with
  | [], _ => []
  | _ :: t, O => value :: t
  | h :: t, S j => h :: replace_nth t j value
  end.

(** [list.indexOf(value)]: the first index, or [-1]. *)
Fixpoint indexOf (l : list Key) (value : Key) : Z :=
  match l with
  | [] => -1
  | h :: t =>
      if String.eqb h value then 0
      else let r := indexOf t value in
           if r <? 0 then -1 else r + 1
  end.

(** [list.set(index, value)] at an index that [indexOf] can return, that is
    from [-1] up to the size excluded.  Inside the list the slot is
    overwritten; [-1] wraps to the last slot; on the empty list [-1] stays
    negative after wrapping and Immutable.js grows the list at the front,
    which gives the one-element list.  (Further out of range Immutable.js
    pads with [undefined]; no caller passes such an index, see
    [indexOf_range], and the list is returned as it is.) *)
Definition List_set (l : list Key) (index : Z) (value : Key) : list Key :=
  let i := wrapIndex l index in
  if (0 <=? i) && (i <? count l) then replace_nth l (Z.to_nat i) value
  else if (i =? -1) && (count l =? 0) then [value]
  else l.

(** [list.delete(index)]: nothing happens unless [list.has(index)]. *)
Definition List_delete (l : list Key) (index : Z) : list Key :=
  if List_has l index then
    if index =? 0 then tl l
    else if index =? count l - 1 then removelast l
    else List_splice_remove l index
  else l.

(** ** Immutable.js [OrderedMap] and plain objects keyed by strings *)

Section Keyed.
Context {V : Type}.

Fixpoint get (m : list (Key * V)) (k : Key) : option V :=
  match m with
  | [] => None
  | (k', v) :: m' => if String.eqb k' k then Some v else get m' k
  end.

(** [map.set(k, v)]: an existing key keeps its place, a new key is
    appended.  The same function adds or overwrites a property of the
    staging object, see [assign]. *)
Fixpoint set (m : list (Key * V)) (k : Key) (v : V) : list (Key * V) :=
  match m with
  | [] => [(k, v)]
  | (k', v') :: m' =>
      if String.eqb k' k then (k, v) :: m' else (k', v') :: set m' k v
  end.

(** [map.merge(obj)]: every property of the object is [set] in turn. *)
Definition merge (m : list (Key * V)) (obj : list (Key * V)) : list (Key * V) :=
  fold_left (fun acc kv => set acc (fst kv) (snd kv)) obj m.

(** [Immutable.OrderedMap(entries)]. *)
Definition OrderedMap (entries : list (Key * V)) : list (Key * V) :=
  merge [] entries.

(** [a.concat(b)]: the ordered map of the entries of [a] followed by those
    of [b]. *)
Definition concat (a b : list (Key * V)) : list (Key * V) :=
  OrderedMap (a ++ b).

(** [map.takeUntil(pred)] and [map.skipUntil(pred)]; the predicate looks
    at the value. *)
Fixpoint takeUntil (pred : V -> bool) (m : list (Key * V)) : list (Key * V) :=
  match m with
  | [] => []
  | (k, v) :: m' => if pred v then [] else (k, v) :: takeUntil pred m'
  end.

Fixpoint skipUntil (pred : V -> bool) (m : list (Key * V)) : list (Key * V) :=
  match m with
  | [] => []
  | (k, v) :: m' => if pred v then m else skipUntil pred m'
  end.

(** [map.slice(1)]. *)
Definition slice1 (m : list (Key * V)) : list (Key * V) := tl m.

Definition keys (m : list (Key * V)) : list Key := List.map fst m.
End Keyed.

Definition BlockMap : Type := list (Key * ContentBlockNode).

(** The staging object [newBlocks]: its own properties, in the order in
    which they were added. *)
Definition Staged : Type := list (Key * ContentBlockNode).

(** The property names under which a node is staged as an ordinary property.
    The name [__proto__] is not one: [newBlocks['__proto__'] = node] replaces
    the prototype of the object by the node and adds no property, and [merge]
    then takes the object for an Immutable.js record.  The name
    [@@__IMMUTABLE_ITERABLE__@@] is not one either: it is the mark by which
    [merge] tells an Immutable.js collection from a plain object. *)
Definition plainKey (k : Key) : bool :=
  negb (String.eqb k "__proto__") &&
  negb (String.eqb k "@@__IMMUTABLE_ITERABLE__@@").

(** The assignment [newBlocks[k] = v]. *)
Definition assign (newBlocks : Staged) (k : Key) (v : ContentBlockNode)
    : result Staged :=
  if plainKey k then Ok (set newBlocks k v) else Err SpecialProperty.

(** ** The three primitives *)

Definition updateParentChild (blockMap : BlockMap) (parentKey childKey : Key)
    (position : Z) : result BlockMap :=
  match get blockMap parentKey, get blockMap childKey with
  | Some parent, Some child =>
      let newBlocks : Staged := [] in
      let existingChildren := getChildKeys parent in
      _ <- invariant ((0 <=? position) && (position <=? count existingChildren))
             "position is not valid for the number of children" ;;
      (* add as parent's child *)
      newBlocks <-
        assign newBlocks parentKey
          (merge_children parent
             (List_splice_insert existingChildren position childKey)) ;;
      (* link new child as next sibling to the correct existing child *)
      '(prevSiblingKey, newBlocks) <-
        (if 0 <? position then
           k <- deref (List_get existingChildren (position - 1)) ;;
           b <- deref (get blockMap k) ;;
           newBlocks <- assign newBlocks k (merge_nextSibling b (Some childKey)) ;;
           Ok (Some k, newBlocks)
         else Ok (None, newBlocks)) ;;
      (* link new child as previous sibling to the correct existing child *)
      '(nextSiblingKey, newBlocks) <-
        (if position <? count existingChildren then
           k <- deref (List_get existingChildren position) ;;
           b <- deref (get blockMap k) ;;
           newBlocks <- assign newBlocks k (merge_prevSibling b (Some childKey)) ;;
           Ok (Some k, newBlocks)
         else Ok (None, newBlocks)) ;;
      (* add parent & siblings to the child *)
      newBlocks <-
        assign newBlocks childKey
          (merge_links child (Some parentKey) prevSiblingKey nextSiblingKey) ;;
      Ok (merge blockMap newBlocks)
  | _, _ => Err (InvariantViolation "parent & child should exist in the block map")
  end.

Definition updateSibling (blockMap : BlockMap) (prevKey nextKey : Key)
    : result BlockMap :=
  match get blockMap prevKey, get blockMap nextKey with
  | Some prevSibling, Some nextSibling =>
      let newBlocks : Staged := [] in
      newBlocks <-
        assign newBlocks prevKey (merge_nextSibling prevSibling (Some nextKey)) ;;
      newBlocks <-
        assign newBlocks nextKey (merge_prevSibling nextSibling (Some prevKey)) ;;
      Ok (merge blockMap newBlocks)
  | _, _ => Err (InvariantViolation "siblings should exist in the block map")
  end.

Definition replaceParentChild (blockMap : BlockMap)
    (parentKey existingChildKey newChildKey : Key) : result BlockMap :=
  match get blockMap parentKey, get blockMap newChildKey with
  | Some parent, Some newChild =>
      let existingChildren := getChildKeys parent in
      let newBlocks : Staged := [] in
      newBlocks <-
        assign newBlocks parentKey
          (merge_children parent
             (List_set existingChildren
                (indexOf existingChildren existingChildKey) newChildKey)) ;;
      newBlocks <-
        assign newBlocks newChildKey (merge_parent newChild (Some parentKey)) ;;
      Ok (merge blockMap newBlocks)
  | _, _ => Err (InvariantViolation "parent & child should exist in the block map")
  end.

(** ** The two composite operations *)

Inductive SiblingInsertPosition : Type :=
| previous
| next.

Section Composite.
(** The build flag and the validity predicate of [DraftTreeInvariants]. *)
Variable __DEV__ : bool.
Variable isValidTree : BlockMap -> bool.

Definition verifyTree (tree : BlockMap) : result unit :=
  if __DEV__ then invariant (isValidTree tree) "The tree is not valid"
  else Ok tt.

(** [newKey] is the value of [generateRandomKey()]. *)
Definition createNewParent (newKey : Key) (blockMap : BlockMap) (key : Key)
    : result BlockMap :=
  _ <- verifyTree blockMap ;;
  match get blockMap key with
  | None => Err (InvariantViolation "block must exist in block map")
  | Some block =>
      let newParent :=
        newContentBlockNode newKey "" (depth block) (type block) [] in
      (* add the parent just before the child in the block map *)
      let newBlockMap :=
        concat
          (concat (takeUntil (fun block => String.eqb (getKey block) key) blockMap)
                  (OrderedMap [(getKey newParent, newParent)]))
          (skipUntil (fun block => String.eqb (getKey block) key) blockMap) in
      (* set parent <-> child connection *)
      newBlockMap <- updateParentChild newBlockMap (getKey newParent) key 0 ;;
      (* set siblings & parent for the new parent key to child's siblings & parent *)
      let prevSibling := getPrevSiblingKey block in
      let nextSibling := getNextSiblingKey block in
      let parent := getParentKey block in
      newBlockMap <-
        match prevSibling with
        | Some prevSibling =>
            updateSibling newBlockMap prevSibling (getKey newParent)
        | None => Ok newBlockMap
        end ;;
      newBlockMap <-
        match nextSibling with
        | Some nextSibling =>
            updateSibling newBlockMap (getKey newParent) nextSibling
        | None => Ok newBlockMap
        end ;;
      newBlockMap <-
        match parent with
        | Some parent =>
            replaceParentChild newBlockMap parent key (getKey newParent)
        | None => Ok newBlockMap
        end ;;
      _ <- verifyTree newBlockMap ;;
      Ok newBlockMap
  end.

Definition updateAsSiblingsChild (blockMap : BlockMap) (key : Key)
    (position : SiblingInsertPosition) : result BlockMap :=
  _ <- verifyTree blockMap ;;
  match get blockMap key with
  | None => Err (InvariantViolation "block must exist in block map")
  | Some block =>
      match (match position with
             | previous => getPrevSiblingKey block
             | next => getNextSiblingKey block
             end) with
      | None => Err (InvariantViolation "sibling is null")
      | Some newParentKey =>
          (* [newParent !== null && newParent.getText() === '']: a missing
             key gives [undefined], which is not [null], and the call of
             [getText] on it throws before [invariant] is reached *)
          newParent <- deref (get blockMap newParentKey) ;;
          _ <- invariant (String.eqb (getText newParent) "")
                 "parent must be a valid node" ;;
          newBlockMap <-
            match position with
            | next =>
                newBlockMap <- updateParentChild blockMap newParentKey key 0 ;;
                newBlockMap <-
                  match getPrevSiblingKey block with
                  | Some prevSibling =>
                      updateSibling newBlockMap prevSibling newParentKey
                  | None =>
                      b <- deref (get newBlockMap newParentKey) ;;
                      Ok (set newBlockMap newParentKey (merge_prevSibling b None))
                  end ;;
                (* we also need to flip the order of the sibling & block in
                   the ordered map for this case; both keys are in the map
                   here, [updateParentChild] has read them *)
                bParent <- deref (get newBlockMap newParentKey) ;;
                bKey <- deref (get newBlockMap key) ;;
                Ok (concat
                      (concat
                         (takeUntil (fun block => String.eqb (getKey block) key)
                                    newBlockMap)
                         (OrderedMap [(newParentKey, bParent); (key, bKey)]))
                      (slice1
                         (skipUntil
                            (fun block => String.eqb (getKey block) newParentKey)
                            newBlockMap)))
            | previous =>
                newBlockMap <-
                  updateParentChild blockMap newParentKey key
                    (count (getChildKeys newParent)) ;;
                match getNextSiblingKey block with
                | Some nextSibling =>
                    updateSibling newBlockMap newParentKey nextSibling
                | None =>
                    b <- deref (get newBlockMap newParentKey) ;;
                    Ok (set newBlockMap newParentKey (merge_nextSibling b None))
                end
            end ;;
          (* remove the node as a child of its current parent *)
          newBlockMap <-
            match getParentKey block with
            | Some parentKey =>
                parent <- deref (get newBlockMap parentKey) ;;
                Ok (set newBlockMap parentKey
                      (merge_children parent
                         (List_delete (getChildKeys parent)
                            (indexOf (getChildKeys parent) key))))
            | None => Ok newBlockMap
            end ;;
          _ <- verifyTree newBlockMap ;;
          Ok newBlockMap
      end
  end.
End Composite.

(** * Definitions used by the statements *)

(** ** Neighbours and well-formedness *)

Definition okey_eqb (o : option Key) (k : Key) : bool :=
  match o with
  | Some x => String.eqb x k
  | None => false
  end.

(** The neighbours [updateParentChild] links the new child to: the child at
    [position - 1] and the child at [position] of the old list. *)
Definition prevOf (cs : list Key) (position : Z) : option Key :=
  if 0 <? position then List_get cs (position - 1) else None.

Definition nextOf (cs : list Key) (position : Z) : option Key :=
  if position <? count cs then List_get cs position else None.

(** The neighbours of a child added in front of, or after, the children of
    a node. *)
Definition firstChild (b : ContentBlockNode) : option Key :=
  nextOf (children b) 0.

Definition lastChild (b : ContentBlockNode) : option Key :=
  prevOf (children b) (count (children b)).

(** No key of the collection is one of the property names that the staging
    object does not take as an ordinary property. *)
Definition plainKeys (m : BlockMap) : Prop :=
  forall k, In k (keys m) -> plainKey k = true.


(** The key a node carries is the key it is stored under. *)
Definition keyed (m : BlockMap) : Prop :=
  forall k b, get m k = Some b -> getKey b = k.

(** Every sibling link of a collection is mirrored by the sibling it names,
    and every child a node lists names that node as its parent. *)
Definition symmetric (m : BlockMap) : Prop :=
  forall k b, get m k = Some b ->
    (forall x, nextSibling b = Some x ->
       exists bx, get m x = Some bx /\ prevSibling bx = Some k) /\
    (forall x, prevSibling b = Some x ->
       exists bx, get m x = Some bx /\ nextSibling bx = Some k) /\
    (forall c, In c (children b) ->
       exists bc, get m c = Some bc /\ parent bc = Some k).

(** The same, as a test that can be run. *)
Definition mirrored (m : BlockMap) (link : option Key)
    (back : ContentBlockNode -> option Key) (k : Key) : bool :=
  match link with
  | None => true
  | Some x =>
      match get m x with
      | Some bx => okey_eqb (back bx) k
      | None => false
      end
  end.

Definition symmetricb (m : BlockMap) : bool :=
  forallb
    (fun kb : Key * ContentBlockNode =>
       let (k, b) := kb in
       mirrored m (nextSibling b) prevSibling k &&
       mirrored m (prevSibling b) nextSibling k &&
       forallb (fun c => mirrored m (Some c) parent k) (children b))
    m.

(** The map of a result that is known to be one. *)
Definition resultMap (r : result BlockMap) : BlockMap :=
  match r with
  | Ok a => a
  | Err _ => []
  end.

(** ** The composite operations as lookup tables *)




(** What a lookup gives after adoption by the next sibling [s], when the
    sibling comes right after the block in the map. *)
Definition adoptedByNext (m : BlockMap) (k : Key) (kb : ContentBlockNode)
    (s : Key) (sb : ContentBlockNode) (x : Key) : option ContentBlockNode :=
  if String.eqb k x then
    Some (merge_links kb (Some s) None (firstChild sb))
  else if String.eqb s x then
    Some (merge_prevSibling (merge_children sb (k :: children sb))
            (prevSibling kb))
  else if okey_eqb (firstChild sb) x then
    option_map (fun b => merge_prevSibling b (Some k)) (get m x)
  else if okey_eqb (prevSibling kb) x then
    option_map (fun b => merge_nextSibling b (Some s)) (get m x)
  else if okey_eqb (parent kb) x then
    option_map
      (fun b => merge_children b
                  (List_delete (children b) (indexOf (children b) k)))
      (get m x)
  else get m x.

(** ** Collections used as examples *)



(** The children X, Y, Z under P, and a node W that is linked elsewhere. *)
Definition scenarioP : ContentBlockNode :=
  mkNode "P" "" 0 "unstyled" None None None ["X"; "Y"; "Z"].

Definition scenarioChild (k : Key) (a n : option Key) : ContentBlockNode :=
  mkNode k "" 1 "unstyled" (Some "P") a n [].

Definition scenarioW : ContentBlockNode :=
  mkNode "W" "w" 0 "unstyled" None (Some "Q") (Some "R") [].

Definition scenario : BlockMap :=
  [("P", scenarioP);
   ("X", scenarioChild "X" None (Some "Y"));
   ("Y", scenarioChild "Y" (Some "X") (Some "Z"));
   ("Z", scenarioChild "Z" (Some "Y") None);
   ("W", scenarioW)].

(** Two top-level siblings A and B, before and after A is wrapped in the new
    parent [N]. *)
Definition twoBlocks (tA : string) (dA : Z) (tyA : string)
    (tB : string) (dB : Z) (tyB : string) : BlockMap :=
  [("A", mkNode "A" tA dA tyA None None (Some "B") []);
   ("B", mkNode "B" tB dB tyB None (Some "A") None [])].

Definition twoBlocksWrapped (N : Key) (tA : string) (dA : Z) (tyA : string)
    (tB : string) (dB : Z) (tyB : string) : BlockMap :=
  [(N, mkNode N "" dA tyA None None (Some "B") ["A"]);
   ("A", mkNode "A" tA dA tyA (Some N) None None []);
   ("B", mkNode "B" tB dB tyB None (Some N) None [])].

(** A node whose next sibling S is not in the collection. *)
Definition lonelyK : ContentBlockNode :=
  mkNode "K" "k" 0 "unstyled" None None (Some "S") [].

(** K with its child C and its next sibling S, in document order. *)
Definition nestK : ContentBlockNode :=
  mkNode "K" "" 0 "unstyled" None None (Some "S") ["C"].

Definition nestC : ContentBlockNode :=
  mkNode "C" "c" 1 "unstyled" (Some "K") None None [].

Definition nestS : ContentBlockNode :=
  mkNode "S" "" 0 "unstyled" None (Some "K") None [].

Definition nest : BlockMap := [("K", nestK); ("C", nestC); ("S", nestS)].

(** The parent P with its children A, K and S, and the child F of S. *)
Definition familyP : ContentBlockNode :=
  mkNode "P" "" 0 "unstyled" None None None ["A"; "K"; "S"].

Definition familyA : ContentBlockNode :=
  mkNode "A" "" 1 "unstyled" (Some "P") None (Some "K") [].

Definition familyK : ContentBlockNode :=
  mkNode "K" "k" 1 "unstyled" (Some "P") (Some "A") (Some "S") [].

Definition familyS : ContentBlockNode :=
  mkNode "S" "" 1 "unstyled" (Some "P") (Some "K") None ["F"].

Definition familyF : ContentBlockNode :=
  mkNode "F" "f" 2 "unstyled" (Some "S") None None [].

Definition family : BlockMap :=
  [("P", familyP); ("A", familyA); ("K", familyK); ("S", familyS);
   ("F", familyF)].

(** The siblings A and C, and a third top-level node B. *)
Definition chainA : ContentBlockNode :=
  mkNode "A" "a" 0 "unstyled" None None (Some "C") [].

Definition chainC : ContentBlockNode :=
  mkNode "C" "c" 0 "unstyled" None (Some "A") None [].

Definition chainB : ContentBlockNode :=
  mkNode "B" "b" 0 "unstyled" None None None [].

(** ** What the operations carry through *)

(** The key, text, depth and type of a node: the fields that the tree
    operations never write. *)
Definition sameContent (b b' : ContentBlockNode) : Prop :=
  key b' = key b /\ text b' = text b /\ depth b' = depth b /\ type b' = type b.

(** Every node of [m'] is a node of [m] with the same key, text, depth and
    type. *)
Definition carried (m m' : BlockMap) : Prop :=
  forall k b', get m' k = Some b' ->
    exists b, get m k = Some b /\ sameContent b b'.

(** * CharacterMetadata *)

(** ** Values *)

(** What a member of a set, or a field that holds no set, can be: a string,
    [null] or [undefined]. *)
Inductive Atom : Type :=
| Str (s : string)
| Null
| Undefined.

(** Immutable.js [OrderedSet]: the members in insertion order, none of them
    twice. *)
Definition OrderedSet : Type := list Atom.

(** [CharacterMetadataConfigValueType = DraftInlineStyle | ?string]. *)
Inductive ConfigValue : Type :=
| SetValue (s : OrderedSet)
| AtomValue (a : Atom).

(** [Immutable.is]: strings by value, [null] and [undefined] each with
    itself, ordered sets member by member in order. *)
Definition Atom_eq_dec (a b : Atom) : {a = b} + {a <> b}.
Proof. decide equality. apply string_dec. Defined.

Definition ConfigValue_eq_dec (a b : ConfigValue) : {a = b} + {a <> b}.
Proof. decide equality; [apply (list_eq_dec Atom_eq_dec)|apply Atom_eq_dec]. Defined.

(** [set.includes(a)], [set.add(a)] and [set.remove(a)]. *)
Definition OrderedSet_includes (s : OrderedSet) (a : Atom) : bool :=
  if in_dec Atom_eq_dec a s then true else false.

Definition OrderedSet_add (s : OrderedSet) (a : Atom) : OrderedSet :=
  if OrderedSet_includes s a then s else s ++ [a].

Definition OrderedSet_remove (s : OrderedSet) (a : Atom) : OrderedSet :=
  List.remove Atom_eq_dec a s.

(** [str.includes(sub)] of [String.prototype]: [sub] occurs in [str]. *)
Fixpoint String_includes (str sub : string) : bool :=
  String.prefix sub str ||
  match str with
  | EmptyString => false
  | String _ str' => String_includes str' sub
  end.

(** The receiver of a method of [OrderedSet]: the call throws a [TypeError]
    on [null] and [undefined], and on a string, which has no such method. *)
Definition asOrderedSet (v : ConfigValue) : result OrderedSet :=
  match v with
  | SetValue s => Ok s
  | AtomValue _ => Err TypeError
  end.

(** ** The record, its configuration and the pool *)

Definition EMPTY_SET : OrderedSet := [].

(** An instance of [CharacterMetadataRecord]. *)
Record CharacterMetadata : Type := mkCharacterMetadata {
  style : ConfigValue;
  entity : ConfigValue
}.

(** A [CharacterMetadataConfig] object: each of the two properties is there
    or not. *)
Record CharacterMetadataConfig : Type := mkConfig {
  config_style : option ConfigValue;
  config_entity : option ConfigValue
}.

(** A record that is passed as a configuration gives both properties. *)
Definition configOfRecord (record : CharacterMetadata) : CharacterMetadataConfig :=
  mkConfig (Some (style record)) (Some (entity record)).

(** An Immutable.js [Map] with the keys ['style'] and ['entity']. *)
Definition ConfigMap : Type := (ConfigValue * ConfigValue)%type.

Definition ConfigMap_eq_dec (a b : ConfigMap) : {a = b} + {a <> b}.
Proof. decide equality; apply ConfigValue_eq_dec. Defined.

(** [Map(defaults).merge(config)]. *)
Definition Map_merge (defaults : ConfigMap) (config : CharacterMetadataConfig)
    : ConfigMap :=
  (match config_style config with Some v => v | None => fst defaults end,
   match config_entity config with Some v => v | None => snd defaults end).

Definition defaultRecord : ConfigMap := (SetValue EMPTY_SET, SetValue EMPTY_SET).

(** [new CharacterMetadata(configMap)]. *)
Definition newCharacterMetadata (configMap : ConfigMap) : CharacterMetadata :=
  mkCharacterMetadata (fst configMap) (snd configMap).

(** [new CharacterMetadata()]: the defaults of the record. *)
Definition EMPTY : CharacterMetadata := newCharacterMetadata defaultRecord.

(** The module variable [pool], a [Map] from configuration maps to
    records; its keys are compared with [Immutable.is]. *)
Definition Pool : Type := list (ConfigMap * CharacterMetadata).

Fixpoint Pool_get (pool : Pool) (configMap : ConfigMap)
    : option CharacterMetadata :=
  match pool with
  | [] => None
  | (c, r) :: pool' =>
      if ConfigMap_eq_dec c configMap then Some r else Pool_get pool' configMap
  end.

Fixpoint Pool_set (pool : Pool) (configMap : ConfigMap) (r : CharacterMetadata)
    : Pool :=
  match pool with
  | [] => [(configMap, r)]
  | (c, r') :: pool' =>
      if ConfigMap_eq_dec c configMap then (configMap, r) :: pool'
      else (c, r') :: Pool_set pool' configMap r
  end.

(** The value of [pool] when the module has been loaded. *)
Definition initialPool : Pool := [(defaultRecord, EMPTY)].

(** ** The methods *)

Definition getStyle (this : CharacterMetadata) : ConfigValue := style this.

Definition getEntity (this : CharacterMetadata) : ConfigValue := entity this.

Definition Record_set_style (record : CharacterMetadata) (v : ConfigValue)
    : CharacterMetadata :=
  mkCharacterMetadata v (entity record).

Definition Record_set_entity (record : CharacterMetadata) (v : ConfigValue)
    : CharacterMetadata :=
  mkCharacterMetadata (style record) v.

(** [this.getStyle().includes(style)]: the method of the set, or the one of
    [String.prototype] when the style of the record is a string. *)
Definition hasStyle (this : CharacterMetadata) (style : string) : result bool :=
  match getStyle this with
  | SetValue s => Ok (OrderedSet_includes s (Str style))
  | AtomValue (Str str) => Ok (String_includes str style)
  | AtomValue _ => Err TypeError
  end.

(** [CharacterMetadata.create(config)]; the pool is passed in and returned.
    No configuration stands for a missing argument, [undefined] or [null]. *)
Definition create (config : option CharacterMetadataConfig) (pool : Pool)
    : CharacterMetadata * Pool :=
  match config with
  | None => (EMPTY, pool)
  | Some config =>
      let defaultConfig : ConfigMap := (SetValue EMPTY_SET, AtomValue Null) in
      (* Fill in unspecified properties, if necessary. *)
      let configMap := Map_merge defaultConfig config in
      match Pool_get pool configMap with
      | Some existing => (existing, pool)
      | None =>
          let newCharacter := newCharacterMetadata configMap in
          (newCharacter, Pool_set pool configMap newCharacter)
      end
  end.

Definition applyStyle (record : CharacterMetadata) (style : string)
    (pool : Pool) : result (CharacterMetadata * Pool) :=
  s <- asOrderedSet (getStyle record) ;;
  let withStyle :=
    Record_set_style record (SetValue (OrderedSet_add s (Str style))) in
  Ok (create (Some (configOfRecord withStyle)) pool).

Definition removeStyle (record : CharacterMetadata) (style : string)
    (pool : Pool) : result (CharacterMetadata * Pool) :=
  s <- asOrderedSet (getStyle record) ;;
  let withoutStyle :=
    Record_set_style record (SetValue (OrderedSet_remove s (Str style))) in
  Ok (create (Some (configOfRecord withoutStyle)) pool).

(** [entityKey] has the type [?string]. *)
Definition applyEntity (record : CharacterMetadata) (entityKey : Atom)
    (pool : Pool) : result (CharacterMetadata * Pool) :=
  s <- asOrderedSet (getEntity record) ;;
  let withEntity :=
    Record_set_entity record (SetValue (OrderedSet_add s entityKey)) in
  Ok (create (Some (configOfRecord withEntity)) pool).

(** ** Definitions used by the statements about the pool *)

(** Every record of the pool has the values of the configuration map it is
    stored under. *)
Definition pooled (pool : Pool) : Prop :=
  forall configMap c,
    Pool_get pool configMap = Some c -> c = newCharacterMetadata configMap.

(** The pools that calls of the four static methods lead to. *)
Inductive reachable : Pool -> Prop :=
| reachable_initial : reachable initialPool
| reachable_create config pool :
    reachable pool -> reachable (snd (create config pool))
| reachable_applyStyle record style pool r pool' :
    reachable pool -> applyStyle record style pool = Ok (r, pool') ->
    reachable pool'
| reachable_removeStyle record style pool r pool' :
    reachable pool -> removeStyle record style pool = Ok (r, pool') ->
    reachable pool'
| reachable_applyEntity record entityKey pool r pool' :
    reachable pool -> applyEntity record entityKey pool = Ok (r, pool') ->
    reachable pool'.

(** * Properties *)

(** ** Lists of keys *)

Lemma indexOf_range (l : list Key) (value : Key) :
  -1 <= indexOf l value < count l \/ (l = [] /\ indexOf l value = -1).
Proof.
  unfold count. induction l as [|h t IH]; simpl; [right; split; reflexivity|].
  left. destruct (String.eqb h value); [lia|].
  destruct (indexOf t value <? 0) eqn:E; [lia|].
  apply Z.ltb_ge in E. destruct IH as [IH|[_ IH]]; lia.
Qed.


Lemma indexOf_in (l : list Key) (value : Key) :
  In value l ->
  exists i : nat,
    indexOf l value = Z.of_nat i /\ nth_error l i = Some value /\
    ~ In value (firstn i l).
Proof.
  induction l as [|h t IH]; simpl; intros Hin; [contradiction|].
  destruct (String.eqb_spec h value) as [->|Hne].
  - exists 0%nat. simpl. tauto.
  - destruct Hin as [Heq|Hin]; [contradiction|].
    destruct (IH Hin) as (i & Hi & Hnth & Hfirst).
    exists (S i). rewrite Hi.
    replace (Z.of_nat i <? 0) with false by (symmetry; apply Z.ltb_ge; lia).
    simpl firstn. simpl nth_error. simpl In. split; [lia|]. tauto.
Qed.




Lemma List_get_nat (l : list Key) (i : nat) :
  (i < length l)%nat -> List_get l (Z.of_nat i) = nth_error l i.
Proof.
  intros Hi. unfold List_get, wrapIndex, count.
  replace (Z.of_nat i <? 0) with false by (symmetry; apply Z.ltb_ge; lia).
  replace (0 <=? Z.of_nat i) with true by (symmetry; apply Z.leb_le; lia).
  replace (Z.of_nat i <? Z.of_nat (length l)) with true
    by (symmetry; apply Z.ltb_lt; lia).
  simpl. now rewrite Nat2Z.id.
Qed.

Lemma List_splice_insert_nat (l : list Key) (i : nat) (value : Key) :
  (i <= length l)%nat ->
  List_splice_insert l (Z.of_nat i) value = firstn i l ++ value :: skipn i l.
Proof.
  intros Hi. unfold List_splice_insert, resolveBegin, count.
  replace (Z.of_nat i <? 0) with false by (symmetry; apply Z.ltb_ge; lia).
  rewrite Z.min_r by lia. now rewrite Nat2Z.id.
Qed.

(** ** Lookups after updates *)

Section KeyedFacts.
Context {V : Type}.
Implicit Types (m obj l a b : list (Key * V)) (k : Key) (v : V).

Lemma get_set m k k' v :
  get (set m k v) k' = if String.eqb k k' then Some v else get m k'.
Proof.
  induction m as [|[k0 v0] m IH]; simpl.
  - destruct (String.eqb k k'); reflexivity.
  - destruct (String.eqb_spec k0 k) as [->|Hne]; simpl.
    + destruct (String.eqb k k'); reflexivity.
    + rewrite IH. destruct (String.eqb_spec k0 k') as [->|Hne'].
      * destruct (String.eqb_spec k k'); [congruence|reflexivity].
      * reflexivity.
Qed.



Lemma get_None m k : get m k = None <-> ~ In k (keys m).
Proof.
  induction m as [|[k0 v0] m IH]; simpl; [tauto|].
  destruct (String.eqb_spec k0 k) as [->|Hne].
  - split; [discriminate|tauto].
  - rewrite IH. tauto.
Qed.

Lemma get_Some_in m k v : get m k = Some v -> In k (keys m).
Proof.
  intros H. destruct (in_dec string_dec k (keys m)) as [Hin|Hn]; [assumption|].
  apply get_None in Hn. congruence.
Qed.

Lemma get_In m k v : get m k = Some v -> In (k, v) m.
Proof.
  induction m as [|[k0 v0] m IH]; simpl; [discriminate|].
  destruct (String.eqb_spec k0 k) as [->|Hne]; intros H.
  - left. congruence.
  - right. auto.
Qed.

Lemma In_get m k v : NoDup (keys m) -> In (k, v) m -> get m k = Some v.
Proof.
  induction m as [|[k0 v0] m IH]; simpl; intros Hnd Hin; [contradiction|].
  inversion Hnd as [|? ? Hn Hnd']; subst.
  destruct Hin as [Heq|Hin].
  - inversion Heq; subst. now rewrite String.eqb_refl.
  - destruct (String.eqb_spec k0 k) as [->|Hne]; [|auto].
    exfalso. apply Hn. change (In (fst (k, v)) (keys m)). now apply in_map.
Qed.

(** An existing key keeps its place. *)
Lemma keys_set_present m k v : In k (keys m) -> keys (set m k v) = keys m.
Proof.
  induction m as [|[k0 v0] m IH]; simpl; intros Hin; [contradiction|].
  destruct (String.eqb_spec k0 k) as [->|Hne]; simpl; [reflexivity|].
  f_equal. apply IH. destruct Hin; [contradiction|assumption].
Qed.

(** A new key goes to the end. *)
Lemma set_absent m k v : ~ In k (keys m) -> set m k v = m ++ [(k, v)].
Proof.
  induction m as [|[k0 v0] m IH]; simpl; intros Hn; [reflexivity|].
  destruct (String.eqb_spec k0 k) as [->|Hne]; [tauto|].
  f_equal. apply IH. tauto.
Qed.

Lemma in_keys_set m k v k' : In k' (keys (set m k v)) <-> k' = k \/ In k' (keys m).
Proof.
  induction m as [|[k0 v0] m IH]; simpl.
  - intuition.
  - destruct (String.eqb_spec k0 k) as [->|Hne]; simpl; [intuition|].
    rewrite IH. intuition.
Qed.

Lemma NoDup_keys_set m k v : NoDup (keys m) -> NoDup (keys (set m k v)).
Proof.
  intros Hnd. destruct (in_dec string_dec k (keys m)) as [Hin|Hn].
  - now rewrite keys_set_present.
  - rewrite set_absent by assumption. unfold keys. rewrite map_app. simpl.
    apply NoDup_app; [assumption|repeat constructor; simpl; tauto|].
    intros x Hx [<-|[]]. exact (Hn Hx).
Qed.

Lemma merge_cons m k v obj : merge m ((k, v) :: obj) = merge (set m k v) obj.
Proof. reflexivity. Qed.

(** A staged property wins over the entry of the map. *)
Lemma get_merge m obj k :
  NoDup (keys obj) ->
  get (merge m obj) k =
  match get obj k with Some v => Some v | None => get m k end.
Proof.
  revert m. induction obj as [|[k0 v0] obj IH]; intros m Hnd; [reflexivity|].
  inversion Hnd as [|? ? Hn Hnd']; subst.
  rewrite merge_cons, IH by assumption. simpl. rewrite get_set.
  destruct (String.eqb_spec k0 k) as [->|Hne]; [|reflexivity].
  apply get_None in Hn. now rewrite Hn.
Qed.

Lemma keys_merge m obj :
  (forall k, In k (keys obj) -> In k (keys m)) -> keys (merge m obj) = keys m.
Proof.
  revert m. induction obj as [|[k0 v0] obj IH]; intros m Hin; [reflexivity|].
  rewrite merge_cons, IH.
  - apply keys_set_present. apply Hin. now left.
  - intros k Hk. apply in_keys_set. right. apply Hin. now right.
Qed.

Lemma Forall_keys_set (P : Key -> Prop) obj k v :
  P k -> Forall P (keys obj) -> Forall P (keys (set obj k v)).
Proof.
  intros Hk Hall. apply Forall_forall. intros x Hx.
  apply in_keys_set in Hx. destruct Hx as [->|Hx]; [assumption|].
  rewrite Forall_forall in Hall. auto.
Qed.

Lemma keys_merge_staged m obj :
  Forall (fun k => In k (keys m)) (keys obj) -> keys (merge m obj) = keys m.
Proof. intros H. apply keys_merge. now apply Forall_forall. Qed.

Lemma in_keys_merge m obj k :
  In k (keys (merge m obj)) <-> In k (keys m) \/ In k (keys obj).
Proof.
  revert m. induction obj as [|[k0 v0] obj IH]; intros m.
  - unfold merge. simpl. tauto.
  - rewrite merge_cons, IH, in_keys_set. simpl. intuition.
Qed.

Lemma NoDup_keys_merge m obj : NoDup (keys m) -> NoDup (keys (merge m obj)).
Proof.
  revert m. induction obj as [|[k0 v0] obj IH]; intros m Hnd; [assumption|].
  rewrite merge_cons. apply IH. now apply NoDup_keys_set.
Qed.

(** Entries with fresh keys are appended in order. *)
Lemma merge_fresh m obj : NoDup (keys (m ++ obj)) -> merge m obj = m ++ obj.
Proof.
  revert m. induction obj as [|[k0 v0] obj IH]; intros m Hnd.
  - now rewrite app_nil_r.
  - rewrite merge_cons.
    assert (Hn : ~ In k0 (keys m)).
    { unfold keys in *. rewrite map_app in Hnd. simpl in Hnd.
      apply NoDup_remove_2 in Hnd. intros Hin. apply Hnd.
      apply in_or_app. now left. }
    rewrite set_absent by assumption.
    rewrite IH; rewrite <- app_assoc; [reflexivity|exact Hnd].
Qed.

Lemma OrderedMap_NoDup l : NoDup (keys l) -> OrderedMap l = l.
Proof. intros H. unfold OrderedMap. now rewrite merge_fresh. Qed.

Lemma concat_NoDup a b : NoDup (keys (a ++ b)) -> concat a b = a ++ b.
Proof. intros H. unfold concat. now apply OrderedMap_NoDup. Qed.

Lemma takeUntil_skipUntil (pred : V -> bool) m :
  takeUntil pred m ++ skipUntil pred m = m.
Proof.
  induction m as [|[k v] m IH]; simpl; [reflexivity|].
  destruct (pred v); simpl; [reflexivity|]. now rewrite IH.
Qed.
End KeyedFacts.

(** ** The primitives, seen through lookups *)

Lemma Ok_inj {A : Type} (a b : A) : Ok a = Ok b -> a = b.
Proof. congruence. Qed.

Lemma NoDup_keys_nil : NoDup (keys (@nil (Key * ContentBlockNode))).
Proof. constructor. Qed.

Create HintDb staged.
#[local] Hint Resolve NoDup_keys_nil NoDup_keys_set : staged.

(** ** The staging object *)

Lemma assign_plain (o : Staged) (k : Key) (v : ContentBlockNode) :
  plainKey k = true -> assign o k v = Ok (set o k v).
Proof. intros H. unfold assign. now rewrite H. Qed.

Lemma assign_Ok (o o' : Staged) (k : Key) (v : ContentBlockNode) :
  assign o k v = Ok o' -> plainKey k = true /\ o' = set o k v.
Proof.
  unfold assign. destruct (plainKey k); [|discriminate].
  intros H. apply Ok_inj in H. auto.
Qed.

Lemma assign_Err (o : Staged) (k : Key) (v : ContentBlockNode) (e : error) :
  assign o k v = Err e -> plainKey k = false /\ e = SpecialProperty.
Proof.
  unfold assign. destruct (plainKey k); [discriminate|].
  intros H. injection H as <-. auto.
Qed.

Lemma plainKey_proto : plainKey "__proto__" = false.
Proof. reflexivity. Qed.



Lemma updateSibling_Ok (m : BlockMap) (p n : Key) (pb nb : ContentBlockNode) :
  get m p = Some pb -> get m n = Some nb ->
  plainKey p = true -> plainKey n = true ->
  updateSibling m p n =
  Ok (merge m (set (set [] p (merge_nextSibling pb (Some n)))
                   n (merge_prevSibling nb (Some p)))).
Proof.
  intros Hp Hn Pp Pn. unfold updateSibling. rewrite Hp, Hn.
  rewrite (assign_plain _ _ _ Pp). cbn [bind].
  now rewrite (assign_plain _ _ _ Pn).
Qed.

(** A primitive that returns a collection has staged ordinary names only. *)
Lemma updateSibling_plain (m m' : BlockMap) (p n : Key) :
  updateSibling m p n = Ok m' -> plainKey p = true /\ plainKey n = true.
Proof.
  unfold updateSibling. destruct (get m p); [|discriminate].
  destruct (get m n); [|discriminate]. unfold assign.
  destruct (plainKey p); [|discriminate]. cbn [bind].
  destruct (plainKey n); [|discriminate]. auto.
Qed.

Lemma updateSibling_inv (m m' : BlockMap) (p n : Key) :
  updateSibling m p n = Ok m' ->
  exists pb nb,
    get m p = Some pb /\ get m n = Some nb /\
    keys m' = keys m /\
    forall k,
      get m' k =
      if String.eqb n k then Some (merge_prevSibling nb (Some p))
      else if String.eqb p k then Some (merge_nextSibling pb (Some n))
      else get m k.
Proof.
  intros H.
  destruct (get m p) as [pb|] eqn:Hp;
    [|unfold updateSibling in H; rewrite Hp in H; discriminate].
  destruct (get m n) as [nb|] eqn:Hn;
    [|unfold updateSibling in H; rewrite Hp, Hn in H; discriminate].
  destruct (updateSibling_plain _ _ _ _ H) as [Pp Pn].
  rewrite (updateSibling_Ok m p n pb nb Hp Hn Pp Pn) in H.
  apply Ok_inj in H. subst m'. exists pb, nb. repeat split.
  - apply keys_merge_staged. repeat apply Forall_keys_set; eauto using get_Some_in.
  - intros k. rewrite get_merge by auto with staged.
    rewrite !get_set. simpl.
    destruct (String.eqb n k); [reflexivity|].
    destruct (String.eqb p k); reflexivity.
Qed.

Lemma replaceParentChild_Ok (m : BlockMap) (pk old new : Key)
    (pb nb : ContentBlockNode) :
  get m pk = Some pb -> get m new = Some nb ->
  plainKey pk = true -> plainKey new = true ->
  replaceParentChild m pk old new =
  Ok (merge m
        (set (set [] pk
                (merge_children pb
                   (List_set (children pb) (indexOf (children pb) old) new)))
             new (merge_parent nb (Some pk)))).
Proof.
  intros Hp Hn Pp Pn. unfold replaceParentChild. rewrite Hp, Hn.
  rewrite (assign_plain _ _ _ Pp). cbn [bind].
  now rewrite (assign_plain _ _ _ Pn).
Qed.

Lemma replaceParentChild_plain (m m' : BlockMap) (pk old new : Key) :
  replaceParentChild m pk old new = Ok m' ->
  plainKey pk = true /\ plainKey new = true.
Proof.
  unfold replaceParentChild. destruct (get m pk); [|discriminate].
  destruct (get m new); [|discriminate]. unfold assign.
  destruct (plainKey pk); [|discriminate]. cbn [bind].
  destruct (plainKey new); [|discriminate]. auto.
Qed.

Lemma replaceParentChild_inv (m m' : BlockMap) (pk old new : Key) :
  replaceParentChild m pk old new = Ok m' ->
  exists pb nb,
    get m pk = Some pb /\ get m new = Some nb /\
    keys m' = keys m /\
    forall k,
      get m' k =
      if String.eqb new k then Some (merge_parent nb (Some pk))
      else if String.eqb pk k then
        Some (merge_children pb
                (List_set (children pb) (indexOf (children pb) old) new))
      else get m k.
Proof.
  intros H.
  destruct (get m pk) as [pb|] eqn:Hp;
    [|unfold replaceParentChild in H; rewrite Hp in H; discriminate].
  destruct (get m new) as [nb|] eqn:Hn;
    [|unfold replaceParentChild in H; rewrite Hp, Hn in H; discriminate].
  destruct (replaceParentChild_plain _ _ _ _ _ H) as [Pp Pn].
  rewrite (replaceParentChild_Ok m pk old new pb nb Hp Hn Pp Pn) in H.
  apply Ok_inj in H. subst m'. exists pb, nb. repeat split.
  - apply keys_merge_staged. repeat apply Forall_keys_set; eauto using get_Some_in.
  - intros k. rewrite get_merge by auto with staged.
    rewrite !get_set. simpl.
    destruct (String.eqb new k); [reflexivity|].
    destruct (String.eqb pk k); reflexivity.
Qed.


(** What [updateParentChild] returns when it returns a map. *)
Lemma updateParentChild_inv (m m' : BlockMap) (pk ck : Key) (position : Z) :
  updateParentChild m pk ck position = Ok m' ->
  exists pb cb,
    get m pk = Some pb /\ get m ck = Some cb /\
    0 <= position <= count (children pb) /\
    keys m' = keys m /\
    forall k,
      get m' k =
      if String.eqb ck k then
        Some (merge_links cb (Some pk) (prevOf (children pb) position)
                (nextOf (children pb) position))
      else if okey_eqb (nextOf (children pb) position) k then
        option_map (fun b => merge_prevSibling b (Some ck)) (get m k)
      else if okey_eqb (prevOf (children pb) position) k then
        option_map (fun b => merge_nextSibling b (Some ck)) (get m k)
      else if String.eqb pk k then
        Some (merge_children pb (List_splice_insert (children pb) position ck))
      else get m k.
Proof.
  unfold updateParentChild, prevOf, nextOf.
  destruct (get m pk) as [pb|] eqn:Hp; [|discriminate].
  destruct (get m ck) as [cb|] eqn:Hc; [|discriminate].
  unfold getChildKeys.
  destruct ((0 <=? position) && (position <=? count (children pb))) eqn:Hb;
    [|discriminate].
  apply andb_true_iff in Hb. destruct Hb as [Hb1 Hb2].
  apply Z.leb_le in Hb1. apply Z.leb_le in Hb2.
  intros H. exists pb, cb. split; [reflexivity|]. split; [reflexivity|].
  split; [lia|].
  cbv beta iota zeta delta [bind deref invariant assign] in H.
  destruct (plainKey pk); [|discriminate].
  destruct (0 <? position);
    [destruct (List_get (children pb) (position - 1)) as [x|]; [|discriminate];
     destruct (get m x) as [bx|] eqn:Hx; [|discriminate];
     destruct (plainKey x); [|discriminate]|];
  (destruct (position <? count (children pb));
    [destruct (List_get (children pb) position) as [y|]; [|discriminate];
     destruct (get m y) as [bz|] eqn:Hy; [|discriminate];
     destruct (plainKey y); [|discriminate]|]);
  (destruct (plainKey ck); [|discriminate]);
  apply Ok_inj in H; subst m';
  (split;
  [ apply keys_merge_staged; repeat apply Forall_keys_set;
    eauto using get_Some_in
  | intros k; rewrite get_merge by auto with staged;
    rewrite !get_set; cbn [get okey_eqb];
    repeat match goal with
           | |- context [String.eqb ?a k] =>
               destruct (String.eqb_spec a k); subst
           end;
    repeat match goal with
           | H1 : get m ?a = Some _ |- _ => rewrite H1; clear H1
           end;
    try reflexivity ]).
Qed.

Lemma List_get_in_range (l : list Key) (i : Z) :
  0 <= i < count l ->
  exists x, List_get l i = Some x /\ nth_error l (Z.to_nat i) = Some x.
Proof.
  intros Hi. unfold count in Hi.
  destruct (nth_error l (Z.to_nat i)) as [x|] eqn:Hn.
  - exists x. split; [|reflexivity].
    rewrite <- (Z2Nat.id i) by lia. rewrite List_get_nat by lia. exact Hn.
  - apply nth_error_None in Hn. lia.
Qed.



(** ** Failures of [updateParentChild] *)

(** C7.  [updateParentChild] fails with a precondition error (a failed
    [invariant]) exactly when the parent key or the child key does not
    resolve, or the position is negative, or the position is greater than the
    number of children of the parent.  A failure carries no collection: the
    result is an error value and nothing else, and the input, an immutable
    value, is what it was. *)
Theorem updateParentChild_precondition_iff
    (m : BlockMap) (pk ck : Key) (position : Z) :
  (isPreconditionError (updateParentChild m pk ck position) <->
   (get m pk = None \/ get m ck = None \/ position < 0 \/
    exists pb, get m pk = Some pb /\ count (children pb) < position)) /\
  (isPreconditionError (updateParentChild m pk ck position) ->
   forall m', updateParentChild m pk ck position <> Ok m').
Proof.
  split.
  - unfold updateParentChild, isPreconditionError.
    destruct (get m pk) as [pb|] eqn:Hp.
    2:{ split; [auto|]. intros _. eauto. }
    destruct (get m ck) as [cb|] eqn:Hc.
    2:{ split; [auto|]. intros _. eauto. }
    unfold getChildKeys.
    destruct ((0 <=? position) && (position <=? count (children pb))) eqn:Hb.
    + apply andb_true_iff in Hb. destruct Hb as [Hb1 Hb2].
      apply Z.leb_le in Hb1. apply Z.leb_le in Hb2.
      cbv beta iota zeta delta [bind deref invariant assign].
      split.
      * intros [msg Hmsg]. exfalso.
        destruct (plainKey pk); [|discriminate].
        destruct (0 <? position);
          [destruct (List_get (children pb) (position - 1)) as [x|];
           [destruct (get m x); [destruct (plainKey x)|]|]|];
          (destruct (position <? count (children pb));
           [destruct (List_get (children pb) position) as [y|];
            [destruct (get m y); [destruct (plainKey y)|]|]|]);
          destruct (plainKey ck); discriminate.
      * intros [H|[H|[H|(pb' & Hpb & H)]]]; try discriminate; try lia.
        injection Hpb as <-. lia.
    + cbv beta iota zeta delta [bind deref invariant]. split.
      * intros _. right. right.
        apply andb_false_iff in Hb. destruct Hb as [Hb|Hb].
        -- left. apply Z.leb_gt in Hb. lia.
        -- right. exists pb. split; [reflexivity|]. apply Z.leb_gt in Hb. lia.
      * intros _. eauto.
  - intros [msg Hmsg] m' Hm'. congruence.
Qed.

(** ** [updateSibling] with one key for both arguments *)




(** ** [replaceParentChild] *)








(** ** [updateParentChild] *)

Lemma prevOf_spec (cs : list Key) (position : Z) :
  0 <= position <= count cs ->
  prevOf cs position =
  if 0 <? position then nth_error cs (Z.to_nat (position - 1)) else None.
Proof.
  intros H. unfold prevOf. destruct (0 <? position) eqn:E; [|reflexivity].
  apply Z.ltb_lt in E.
  destruct (List_get_in_range cs (position - 1)) as (x & Hx & Hn); [lia|].
  congruence.
Qed.


Lemma List_splice_insert_spec (cs : list Key) (position : Z) (value : Key) :
  0 <= position <= count cs ->
  List_splice_insert cs position value =
  firstn (Z.to_nat position) cs ++ value :: skipn (Z.to_nat position) cs.
Proof.
  intros H. rewrite <- (Z2Nat.id position) at 1 by lia.
  apply List_splice_insert_nat. unfold count in H. lia.
Qed.

(** The keys of a collection are ordinary property names when a check of
    each of them says so. *)
Lemma plainKeys_forallb (m : BlockMap) :
  forallb plainKey (keys m) = true -> plainKeys m.
Proof. intros H k Hk. rewrite forallb_forall in H. now apply H. Qed.

Lemma plainKeys_scenario : plainKeys scenario.
Proof. apply plainKeys_forallb. reflexivity. Qed.




(** ** The composite operations and the validity checks *)

Lemma verifyTree_off (isValidTree : BlockMap -> bool) (tree : BlockMap) :
  verifyTree false isValidTree tree = Ok tt.
Proof. reflexivity. Qed.

(** With the checks enabled an operation is the operation of the production
    build between two calls of [verifyTree]. *)
Ltac step_head :=
  match goal with
  | |- match ?r with Ok _ => _ | Err _ => _ end = _ =>
      destruct r; cbv beta iota; try reflexivity
  | |- match ?r with Some _ => _ | None => _ end = _ =>
      destruct r; cbv beta iota; try reflexivity
  end.

Lemma createNewParent_checked (dev : bool) (isValidTree : BlockMap -> bool)
    (newKey : Key) (m : BlockMap) (k : Key) :
  createNewParent dev isValidTree newKey m k =
  (_ <- verifyTree dev isValidTree m ;;
   r <- createNewParent false isValidTree newKey m k ;;
   _ <- verifyTree dev isValidTree r ;;
   Ok r).
Proof.
  unfold createNewParent. rewrite !verifyTree_off.
  destruct (verifyTree dev isValidTree m) as [[]|e]; [|reflexivity].
  cbv beta iota zeta delta [bind deref].
  repeat step_head.
Qed.

Lemma updateAsSiblingsChild_checked (dev : bool) (isValidTree : BlockMap -> bool)
    (m : BlockMap) (k : Key) (position : SiblingInsertPosition) :
  updateAsSiblingsChild dev isValidTree m k position =
  (_ <- verifyTree dev isValidTree m ;;
   r <- updateAsSiblingsChild false isValidTree m k position ;;
   _ <- verifyTree dev isValidTree r ;;
   Ok r).
Proof.
  unfold updateAsSiblingsChild. rewrite !verifyTree_off.
  destruct (verifyTree dev isValidTree m) as [[]|e]; [|reflexivity].
  cbv beta iota zeta delta [bind deref].
  destruct position; repeat step_head.
Qed.

(** The checks pass, or are disabled, on the input and on what the
    production build computes from it. *)
Lemma checked_run (dev : bool) (isValidTree : BlockMap -> bool)
    (m out : BlockMap) (prod run : result BlockMap) :
  run = (_ <- verifyTree dev isValidTree m ;;
         r <- prod ;;
         _ <- verifyTree dev isValidTree r ;;
         Ok r) ->
  verifyTree dev isValidTree m = Ok tt ->
  prod = Ok out ->
  verifyTree dev isValidTree out = Ok tt ->
  run = Ok out.
Proof. intros -> -> -> H. simpl. now rewrite H. Qed.

(** ** [createNewParent] on two top-level siblings *)

(** C3.  On the collection of the two top-level blocks A and B, with
    [A.nextSibling = B] and [B.prevSibling = A] and no children,
    [createNewParent] for "A" returns the collection [N, A, B] in this
    order, where N is the new node: its children are ["A"], its depth and
    type are those of A, its text is empty, [N.nextSibling = B],
    [B.prevSibling = N], [A.parent = N], and A has no sibling left.  [N] is
    the generated key, which is not a key of the collection and is an
    ordinary property name; the validity checks, when enabled, accept the
    input and the output. *)
Theorem createNewParent_two_blocks
    (dev : bool) (isValidTree : BlockMap -> bool) (N : Key)
    (tA : string) (dA : Z) (tyA : string) (tB : string) (dB : Z) (tyB : string) :
  N <> "A" -> N <> "B" -> plainKey N = true ->
  verifyTree dev isValidTree (twoBlocks tA dA tyA tB dB tyB) = Ok tt ->
  verifyTree dev isValidTree (twoBlocksWrapped N tA dA tyA tB dB tyB) = Ok tt ->
  createNewParent dev isValidTree N (twoBlocks tA dA tyA tB dB tyB) "A"
  = Ok (twoBlocksWrapped N tA dA tyA tB dB tyB) /\
  keys (twoBlocksWrapped N tA dA tyA tB dB tyB) = [N; "A"; "B"].
Proof.
  intros HA HB HN Hin Hout. split; [|reflexivity].
  apply (checked_run dev isValidTree (twoBlocks tA dA tyA tB dB tyB) _ _ _
           (createNewParent_checked _ _ _ _ _) Hin); [|exact Hout].
  assert (E1 : String.eqb N "A" = false) by now apply String.eqb_neq.
  assert (E2 : String.eqb N "B" = false) by now apply String.eqb_neq.
  assert (E3 : String.eqb "A" N = false) by (rewrite String.eqb_sym; exact E1).
  assert (E4 : String.eqb "B" N = false) by (rewrite String.eqb_sym; exact E2).
  unfold createNewParent, twoBlocks, twoBlocksWrapped, updateParentChild,
    updateSibling, replaceParentChild, assign, concat, OrderedMap, merge.
  repeat (progress (cbn -[plainKey];
                    rewrite ?E1, ?E2, ?E3, ?E4, ?HN, ?String.eqb_refl;
                    change (plainKey "A") with true;
                    change (plainKey "B") with true)).
  reflexivity.
Qed.

Lemma createNewParent_two_blocks_witness :
  createNewParent false (fun _ => true) "n1" (twoBlocks "a" 0 "unstyled" "b" 0 "unstyled") "A"
  = Ok (twoBlocksWrapped "n1" "a" 0 "unstyled" "b" 0 "unstyled").
Proof.
  apply (createNewParent_two_blocks false (fun _ => true) "n1"
           "a" 0 "unstyled" "b" 0 "unstyled").
  - discriminate.
  - discriminate.
  - reflexivity.
  - reflexivity.
  - reflexivity.
Defined.

(** ** Failures of [updateAsSiblingsChild] *)

(** The three checks that [updateAsSiblingsChild] does make: the key
    resolves, the sibling reference is not [null], the text of the sibling
    is empty. *)
Lemma updateAsSiblingsChild_preconditions
    (dev : bool) (isValidTree : BlockMap -> bool) (m : BlockMap) (k : Key)
    (position : SiblingInsertPosition) :
  let sibling b :=
    match position with
    | previous => getPrevSiblingKey b
    | next => getNextSiblingKey b
    end in
  get m k = None \/
  (exists b, get m k = Some b /\ sibling b = None) \/
  (exists b s sb, get m k = Some b /\ sibling b = Some s /\
                  get m s = Some sb /\ getText sb <> "") ->
  isPreconditionError (updateAsSiblingsChild dev isValidTree m k position).
Proof.
  intros sibling H. unfold isPreconditionError, updateAsSiblingsChild.
  destruct (verifyTree dev isValidTree m) as [[]|e] eqn:Hv.
  2:{ unfold verifyTree, invariant in Hv.
      destruct dev; [|discriminate]. destruct (isValidTree m); [discriminate|].
      injection Hv as <-. simpl. eauto. }
  cbv beta iota delta [bind].
  destruct H as [H|[(b & Hb & Hs)|(b & s & sb & Hb & Hs & Hsb & Ht)]].
  - rewrite H. eauto.
  - rewrite Hb. fold (sibling b). rewrite Hs. eauto.
  - rewrite Hb. fold (sibling b). rewrite Hs, Hsb. simpl.
    apply String.eqb_neq in Ht. rewrite Ht. simpl. eauto.
Qed.

(** C6, the failing input.  The node K names S as its next sibling and S is
    not in the collection.  The lookup of S gives [undefined], the test
    [newParent !== null] lets it through, and [newParent.getText()] throws a
    [TypeError] before [invariant] is called: the failure is not a
    precondition error. *)
Theorem updateAsSiblingsChild_absent_sibling (isValidTree : BlockMap -> bool) :
  get [("K", lonelyK)] "K" = Some lonelyK /\
  getNextSiblingKey lonelyK = Some "S" /\
  get [("K", lonelyK)] "S" = None /\
  updateAsSiblingsChild false isValidTree [("K", lonelyK)] "K" next
  = Err TypeError /\
  ~ isPreconditionError
      (updateAsSiblingsChild false isValidTree [("K", lonelyK)] "K" next).
Proof.
  repeat split. intros [msg H]. discriminate.
Qed.

(** ** Nodes lost by [updateAsSiblingsChild] *)

(** C2, the failing input.  K has the child C and the next sibling S, in
    document order K, C, S.  Adopting K under S rebuilds the collection from
    the entries before K, then S and K, then the entries after S: the entry
    of C, between K and S, is left out, while K still lists C as its
    child. *)
Theorem updateAsSiblingsChild_next_drops_descendants
    (isValidTree : BlockMap -> bool) :
  get nest "C" = Some nestC /\
  exists m',
    updateAsSiblingsChild false isValidTree nest "K" next = Ok m' /\
    keys m' = ["S"; "K"] /\
    get m' "C" = None /\
    exists k', get m' "K" = Some k' /\ children k' = ["C"].
Proof.
  split; [reflexivity|]. eexists. split; [reflexivity|].
  split; [reflexivity|]. split; [reflexivity|].
  eexists. split; reflexivity.
Qed.

(** ** Splitting a map at a key *)

Section Splitting.
Context {V : Type}.
Implicit Types (m l a b : list (Key * V)) (k : Key) (v : V).

Lemma keys_app a b : keys (a ++ b) = keys a ++ keys b.
Proof. unfold keys. apply map_app. Qed.

Lemma keys_split m (ka kb : list Key) :
  keys m = ka ++ kb ->
  exists a b, m = a ++ b /\ keys a = ka /\ keys b = kb.
Proof.
  revert m. induction ka as [|k ka IH]; intros m H.
  - exists [], m. auto.
  - destruct m as [|[k0 v0] m]; [discriminate|].
    simpl in H. injection H as -> H.
    destruct (IH m H) as (a & b & -> & Ha & Hb).
    exists ((k, v0) :: a), b. simpl. rewrite Ha. auto.
Qed.

Lemma keys_cons_inv m k (ks : list Key) :
  keys m = k :: ks -> exists v m', m = (k, v) :: m' /\ keys m' = ks.
Proof.
  destruct m as [|[k0 v0] m]; [discriminate|].
  simpl. intros H. injection H as -> H. eauto.
Qed.

Lemma get_app_l a b k : In k (keys a) -> get (a ++ b) k = get a k.
Proof.
  induction a as [|[k0 v0] a IH]; simpl; intros H; [contradiction|].
  destruct (String.eqb_spec k0 k); [reflexivity|].
  apply IH. destruct H; [contradiction|assumption].
Qed.

Lemma get_app_r a b k : ~ In k (keys a) -> get (a ++ b) k = get b k.
Proof.
  induction a as [|[k0 v0] a IH]; simpl; intros H; [reflexivity|].
  destruct (String.eqb_spec k0 k); [tauto|]. apply IH. tauto.
Qed.

Lemma takeUntil_app_hit (pred : V -> bool) a b k v :
  (forall k' v', In (k', v') a -> pred v' = false) -> pred v = true ->
  takeUntil pred (a ++ (k, v) :: b) = a /\
  skipUntil pred (a ++ (k, v) :: b) = (k, v) :: b.
Proof.
  intros Ha Hv. induction a as [|[k0 v0] a IH]; simpl.
  - now rewrite Hv.
  - rewrite (Ha k0 v0) by now left.
    destruct IH as [IH1 IH2]; [intros; eapply Ha; right; eauto|].
    now rewrite IH1, IH2.
Qed.
End Splitting.

Lemma keyed_In (m : BlockMap) (k : Key) (b : ContentBlockNode) :
  NoDup (keys m) -> keyed m -> In (k, b) m -> getKey b = k.
Proof. intros Hnd Hk Hin. apply Hk. now apply In_get. Qed.

Lemma keyed_updateParentChild (m m' : BlockMap) (pk ck : Key) (position : Z) :
  keyed m -> updateParentChild m pk ck position = Ok m' -> keyed m'.
Proof.
  intros Hk Hrun k b.
  destruct (updateParentChild_inv _ _ _ _ _ Hrun)
    as (pb & cb & Hp & Hc & _ & _ & Hget).
  rewrite Hget.
  destruct (String.eqb_spec ck k) as [->|_].
  { intros H. injection H as <-. apply (Hk _ _ Hc). }
  destruct (okey_eqb _ k).
  { destruct (get m k) as [b0|] eqn:Hb0; [|discriminate].
    intros H. injection H as <-. apply (Hk _ _ Hb0). }
  destruct (okey_eqb _ k).
  { destruct (get m k) as [b0|] eqn:Hb0; [|discriminate].
    intros H. injection H as <-. apply (Hk _ _ Hb0). }
  destruct (String.eqb_spec pk k) as [->|_].
  { intros H. injection H as <-. apply (Hk _ _ Hp). }
  apply Hk.
Qed.

Lemma keyed_updateSibling (m m' : BlockMap) (p n : Key) :
  keyed m -> updateSibling m p n = Ok m' -> keyed m'.
Proof.
  intros Hk Hrun k b.
  destruct (updateSibling_inv _ _ _ _ Hrun) as (pb & nb & Hp & Hn & _ & Hget).
  rewrite Hget.
  destruct (String.eqb_spec n k) as [->|_].
  { intros H. injection H as <-. apply (Hk _ _ Hn). }
  destruct (String.eqb_spec p k) as [->|_].
  { intros H. injection H as <-. apply (Hk _ _ Hp). }
  apply Hk.
Qed.

Lemma keyed_replaceParentChild (m m' : BlockMap) (pk old new : Key) :
  keyed m -> replaceParentChild m pk old new = Ok m' -> keyed m'.
Proof.
  intros Hk Hrun k b.
  destruct (replaceParentChild_inv _ _ _ _ _ Hrun)
    as (pb & nb & Hp & Hn & _ & Hget).
  rewrite Hget.
  destruct (String.eqb_spec new k) as [->|_].
  { intros H. injection H as <-. apply (Hk _ _ Hn). }
  destruct (String.eqb_spec pk k) as [->|_].
  { intros H. injection H as <-. apply (Hk _ _ Hp). }
  apply Hk.
Qed.

Lemma keyed_set (m : BlockMap) (k : Key) (b : ContentBlockNode) :
  keyed m -> getKey b = k -> keyed (set m k b).
Proof.
  intros Hk Hb k' b'. rewrite get_set.
  destruct (String.eqb_spec k k') as [->|_]; [|apply Hk].
  intros H. injection H as <-. exact Hb.
Qed.

Lemma removelast_firstn_skipn (l : list Key) :
  l <> [] ->
  removelast l = firstn (pred (length l)) l ++ skipn (S (pred (length l))) l.
Proof.
  intros Hne.
  assert (Hlen : S (pred (length l)) = length l).
  { destruct l; [congruence|reflexivity]. }
  rewrite Hlen, skipn_all, app_nil_r. apply removelast_firstn_len.
Qed.

(** Deleting at an index inside the list removes that slot. *)
Lemma List_delete_nat (l : list Key) (i : nat) :
  (i < length l)%nat ->
  List_delete l (Z.of_nat i) = firstn i l ++ skipn (S i) l.
Proof.
  intros Hi. unfold List_delete, List_has, wrapIndex, count.
  replace (Z.of_nat i <? 0) with false by (symmetry; apply Z.ltb_ge; lia).
  replace (0 <=? Z.of_nat i) with true by (symmetry; apply Z.leb_le; lia).
  replace (Z.of_nat i <? Z.of_nat (length l)) with true
    by (symmetry; apply Z.ltb_lt; lia).
  simpl andb. cbv iota.
  destruct (Z.eqb_spec (Z.of_nat i) 0) as [E|E].
  - assert (i = 0%nat) by lia. subst i. destruct l; reflexivity.
  - destruct (Z.eqb_spec (Z.of_nat i) (Z.of_nat (length l) - 1)) as [E'|E'].
    + assert (i = pred (length l)) by lia. subst i.
      apply removelast_firstn_skipn. intros ->. simpl in Hi. lia.
    + unfold List_splice_remove, resolveBegin, count.
      replace (Z.of_nat i <? 0) with false by (symmetry; apply Z.ltb_ge; lia).
      rewrite Z.min_r by lia. now rewrite Nat2Z.id.
Qed.

(** ** Reordering the map *)

Lemma NoDup_reorder (a b c : list Key) (k s : Key) :
  NoDup (a ++ k :: b ++ s :: c) -> NoDup (a ++ s :: k :: c).
Proof.
  induction a as [|x a IH]; simpl; intros H.
  - inversion H as [|? ? Hk H']; subst.
    assert (Hs : NoDup (s :: c)) by (apply NoDup_app_remove_l in H'; exact H').
    inversion Hs as [|? ? Hsc Hc]; subst.
    constructor.
    + simpl. intros [->|Hin]; [|exact (Hsc Hin)].
      apply Hk. apply in_or_app. right. now left.
    + constructor; [|exact Hc].
      intros Hin. apply Hk. apply in_or_app. right. now right.
  - inversion H as [|? ? Hx H']; subst. constructor; [|now apply IH].
    intros Hin. apply Hx.
    rewrite in_app_iff in Hin. rewrite in_app_iff. simpl in *.
    rewrite in_app_iff. simpl. intuition.
Qed.


(** The map rebuilt by the ['next'] branch: the entries before [k], then the
    sibling and [k], then the entries after the sibling.  The entries that
    were between [k] and the sibling are not in the result. *)
Lemma reorder_next (m : BlockMap) (ka kb kc : list Key) (k s : Key) :
  NoDup (keys m) -> keyed m ->
  keys m = ka ++ k :: kb ++ s :: kc ->
  exists (l1 l2 l3 : BlockMap) (bk bs : ContentBlockNode),
    m = l1 ++ (k, bk) :: l2 ++ (s, bs) :: l3 /\
    get m k = Some bk /\ get m s = Some bs /\
    keys l1 = ka /\ keys l2 = kb /\ keys l3 = kc /\
    (forall x, In x ka -> get l1 x = get m x) /\
    concat
      (concat (takeUntil (fun block => String.eqb (getKey block) k) m)
              (OrderedMap [(s, bs); (k, bk)]))
      (slice1 (skipUntil (fun block => String.eqb (getKey block) s) m))
    = l1 ++ (s, bs) :: (k, bk) :: l3.
Proof.
  intros Hnd Hkeyed Hkeys.
  destruct (keys_split m _ _ Hkeys) as (l1 & r1 & Hm & Hl1 & Hr1).
  destruct (keys_cons_inv _ _ _ Hr1) as (bk & r2 & -> & Hr2).
  destruct (keys_split r2 _ _ Hr2) as (l2 & r3 & -> & Hl2 & Hr3).
  destruct (keys_cons_inv _ _ _ Hr3) as (bs & l3 & -> & Hl3).
  assert (Hk1 : ~ In k ka).
  { rewrite Hkeys in Hnd. apply NoDup_remove_2 in Hnd.
    intros H. apply Hnd. apply in_or_app. now left. }
  assert (Hs : ~ In s ka /\ s <> k /\ ~ In s kb).
  { rewrite Hkeys in Hnd.
    replace (ka ++ k :: kb ++ s :: kc) with ((ka ++ k :: kb) ++ s :: kc) in Hnd
      by (rewrite <- app_assoc; reflexivity).
    apply NoDup_remove_2 in Hnd. rewrite <- app_assoc in Hnd. simpl in Hnd.
    repeat split; intros H; apply Hnd; subst;
      repeat (rewrite in_app_iff; simpl); auto. }
  destruct Hs as (Hs1 & Hsk & Hs2).
  assert (Hgk : get m k = Some bk).
  { rewrite Hm, get_app_r by (rewrite Hl1; exact Hk1).
    simpl. now rewrite String.eqb_refl. }
  assert (Hgs : get m s = Some bs).
  { rewrite Hm, get_app_r by (rewrite Hl1; exact Hs1). simpl.
    replace (String.eqb k s) with false
      by (symmetry; apply String.eqb_neq; congruence).
    rewrite get_app_r by (rewrite Hl2; exact Hs2).
    simpl. now rewrite String.eqb_refl. }
  exists l1, l2, l3, bk, bs.
  split; [exact Hm|].
  split; [exact Hgk|]. split; [exact Hgs|].
  split; [exact Hl1|]. split; [exact Hl2|]. split; [exact Hl3|].
  split.
  { intros x Hx. rewrite Hm. symmetry. apply get_app_l. now rewrite Hl1. }
  (* the two partitions *)
  assert (Htake : takeUntil (fun block => String.eqb (getKey block) k) m = l1).
  { rewrite Hm. apply takeUntil_app_hit.
    - intros k' v' Hin. apply String.eqb_neq.
      assert (Hin' : In (k', v') m) by (rewrite Hm; apply in_or_app; now left).
      rewrite (keyed_In m k' v' Hnd Hkeyed Hin').
      intros ->. apply Hk1. rewrite <- Hl1.
      change (In (fst (k, v')) (keys l1)). now apply in_map.
    - rewrite (Hkeyed _ _ Hgk). apply String.eqb_refl. }
  assert (Hskip : skipUntil (fun block => String.eqb (getKey block) s) m
                  = (s, bs) :: l3).
  { rewrite Hm.
    replace (l1 ++ (k, bk) :: l2 ++ (s, bs) :: l3)
      with ((l1 ++ (k, bk) :: l2) ++ (s, bs) :: l3)
      by (rewrite <- app_assoc; reflexivity).
    apply takeUntil_app_hit.
    - intros k' v' Hin. apply String.eqb_neq.
      assert (Hin' : In (k', v') m).
      { rewrite Hm.
        replace (l1 ++ (k, bk) :: l2 ++ (s, bs) :: l3)
          with ((l1 ++ (k, bk) :: l2) ++ (s, bs) :: l3)
          by (rewrite <- app_assoc; reflexivity).
        apply in_or_app. now left. }
      rewrite (keyed_In m k' v' Hnd Hkeyed Hin').
      intros ->.
      assert (Hin2 : In s (keys (l1 ++ (k, bk) :: l2))).
      { change (In (fst (s, v')) (keys (l1 ++ (k, bk) :: l2))).
        now apply in_map. }
      rewrite keys_app in Hin2. simpl in Hin2.
      rewrite in_app_iff in Hin2. simpl in Hin2.
      rewrite Hl1, Hl2 in Hin2. intuition.
    - rewrite (Hkeyed _ _ Hgs). apply String.eqb_refl. }
  rewrite Htake, Hskip. unfold slice1. simpl tl.
  assert (Hnd3 : NoDup (ka ++ s :: k :: kc)).
  { rewrite Hkeys in Hnd. now apply NoDup_reorder in Hnd. }
  assert (Hpair : OrderedMap [(s, bs); (k, bk)] = [(s, bs); (k, bk)]).
  { apply OrderedMap_NoDup. simpl. constructor.
    - simpl. intros [H|[]]. congruence.
    - constructor; [simpl; tauto|constructor]. }
  rewrite Hpair.
  assert (Hnd4 : NoDup (keys (l1 ++ [(s, bs); (k, bk)]))).
  { rewrite keys_app, Hl1. simpl.
    replace (ka ++ s :: k :: kc) with ((ka ++ [s; k]) ++ kc) in Hnd3
      by (rewrite <- app_assoc; reflexivity).
    now apply NoDup_app_remove_r in Hnd3. }
  rewrite (concat_NoDup l1 _ Hnd4).
  rewrite concat_NoDup.
  - rewrite <- app_assoc. reflexivity.
  - rewrite <- app_assoc, keys_app. simpl. now rewrite Hl1, Hl3.
Qed.

(** ** Adoption by the next sibling *)


Lemma keyed_family : keyed family.
Proof.
  intros k b H. unfold family in H. cbn [get] in H.
  repeat match type of H with
         | (if String.eqb ?a k then _ else _) = _ =>
             destruct (String.eqb_spec a k);
             [injection H as <-; subst; reflexivity|]
         end.
  discriminate.
Qed.

Lemma plainKeys_family : plainKeys family.
Proof. apply plainKeys_forallb. reflexivity. Qed.

Lemma NoDup_family : NoDup (keys family).
Proof.
  simpl. repeat constructor; simpl; intuition discriminate.
Qed.



(** ** The symmetry of links *)

Lemma okey_eqb_true (o : option Key) (k : Key) :
  okey_eqb o k = true <-> o = Some k.
Proof.
  destruct o as [x|]; simpl.
  - rewrite String.eqb_eq. split; congruence.
  - split; discriminate.
Qed.

Lemma okey_eqb_false (o : option Key) (k : Key) :
  o <> Some k -> okey_eqb o k = false.
Proof.
  destruct o as [z|]; simpl; intros H; [|reflexivity].
  apply String.eqb_neq. congruence.
Qed.

Lemma mirrored_true (m : BlockMap) (link : option Key)
    (back : ContentBlockNode -> option Key) (k : Key) :
  mirrored m link back k = true <->
  (forall x, link = Some x -> exists bx, get m x = Some bx /\ back bx = Some k).
Proof.
  unfold mirrored. destruct link as [x|].
  - destruct (get m x) as [bx|] eqn:E.
    + rewrite okey_eqb_true. split.
      * intros H y Hy. injection Hy as <-. eauto.
      * intros H. destruct (H x eq_refl) as (bx' & Hbx & Hback). congruence.
    + split; [discriminate|].
      intros H. destruct (H x eq_refl) as (bx' & Hbx & _). congruence.
  - split; [discriminate|reflexivity].
Qed.


Lemma symmetricb_complete (m : BlockMap) :
  NoDup (keys m) -> symmetric m -> symmetricb m = true.
Proof.
  unfold symmetricb, symmetric. intros Hnd H. apply forallb_forall.
  intros [k b] Hin. destruct (H k b (In_get _ _ _ Hnd Hin)) as (Hn & Hp & Hc).
  apply andb_true_iff. split; [apply andb_true_iff; split|].
  - now apply mirrored_true.
  - now apply mirrored_true.
  - apply forallb_forall. intros c Hc'. apply mirrored_true.
    intros x Hx. injection Hx as <-. auto.
Qed.

(** ** [createNewParent], seen through lookups *)

Lemma checked_run_inv (dev : bool) (isValidTree : BlockMap -> bool)
    (m out : BlockMap) (prod run : result BlockMap) :
  run = (_ <- verifyTree dev isValidTree m ;;
         r <- prod ;;
         _ <- verifyTree dev isValidTree r ;;
         Ok r) ->
  run = Ok out -> prod = Ok out.
Proof.
  intros -> H. destruct (verifyTree dev isValidTree m) as [[]|]; [|discriminate].
  cbn [bind] in H. destruct prod as [r|e]; [|discriminate].
  cbn [bind] in H. destruct (verifyTree dev isValidTree r) as [[]|]; [|discriminate].
  exact H.
Qed.


(** The new parent is spliced in front of the block. *)
Lemma splice_new_parent (m : BlockMap) (k newKey : Key) (np : ContentBlockNode) :
  NoDup (keys m) -> get m newKey = None ->
  exists a b,
    m = a ++ b /\
    concat
      (concat (takeUntil (fun block => String.eqb (getKey block) k) m)
              (OrderedMap [(newKey, np)]))
      (skipUntil (fun block => String.eqb (getKey block) k) m)
    = a ++ (newKey, np) :: b /\
    a = takeUntil (fun block => String.eqb (getKey block) k) m /\
    b = skipUntil (fun block => String.eqb (getKey block) k) m.
Proof.
  intros Hnd Hfresh.
  exists (takeUntil (fun block => String.eqb (getKey block) k) m),
         (skipUntil (fun block => String.eqb (getKey block) k) m).
  pose proof (takeUntil_skipUntil (fun block => String.eqb (getKey block) k) m)
    as Hsplit.
  split; [now symmetry|]. split; [|split; reflexivity].
  set (a := takeUntil _ m) in *. set (b := skipUntil _ m) in *.
  apply get_None in Hfresh. rewrite <- Hsplit, keys_app in Hfresh, Hnd.
  assert (Hnd' : NoDup (keys (a ++ (newKey, np) :: b))).
  { rewrite keys_app. simpl. apply NoDup_Add with (a := newKey) (l := keys a ++ keys b).
    - apply Add_app.
    - split; assumption. }
  assert (Hone : OrderedMap [(newKey, np)] = [(newKey, np)]).
  { apply OrderedMap_NoDup. simpl. repeat constructor. simpl. tauto. }
  rewrite Hone.
  rewrite (concat_NoDup a).
  - rewrite concat_NoDup; rewrite <- app_assoc; [reflexivity|exact Hnd'].
  - replace (a ++ (newKey, np) :: b) with ((a ++ [(newKey, np)]) ++ b) in Hnd'
      by (rewrite <- app_assoc; reflexivity).
    rewrite keys_app in Hnd'. now apply NoDup_app_remove_r in Hnd'.
Qed.

Ltac eqb_false a b :=
  replace (String.eqb a b) with false in *
    by (symmetry; apply String.eqb_neq; congruence).








(** ** [updateAsSiblingsChild], seen through lookups *)


Lemma lastChild_spec (b : ContentBlockNode) :
  lastChild b = match children b with
                | [] => None
                | _ :: _ => Some (List.last (children b) "")
                end.
Proof.
  unfold lastChild. rewrite prevOf_spec by (unfold count; lia).
  destruct (children b) as [|h t] eqn:E; [reflexivity|].
  rewrite <- E. assert (Hne : children b <> []) by (rewrite E; discriminate).
  clear E. destruct (exists_last Hne) as (l' & z & ->).
  unfold count. rewrite length_app. simpl length.
  replace (0 <? Z.of_nat (length l' + 1)) with true
    by (symmetry; apply Z.ltb_lt; lia).
  replace (Z.to_nat (Z.of_nat (length l' + 1) - 1)) with (length l') by lia.
  rewrite nth_error_app2, Nat.sub_diag by lia. simpl.
  now rewrite last_last.
Qed.












Lemma get_swap {V : Type} (a b : list (Key * V)) (k s x : Key) (vk vs : V) :
  k <> s ->
  get (a ++ (s, vs) :: (k, vk) :: b) x = get (a ++ (k, vk) :: (s, vs) :: b) x.
Proof.
  intros Hks. destruct (in_dec string_dec x (keys a)) as [Hin|Hn].
  - now rewrite !get_app_l.
  - rewrite !get_app_r by assumption. simpl.
    destruct (String.eqb_spec s x) as [Hsx|_];
      destruct (String.eqb_spec k x) as [Hkx|_]; congruence.
Qed.

Lemma keys_nil_inv {V : Type} (l : list (Key * V)) : keys l = [] -> l = [].
Proof. destruct l; [reflexivity|discriminate]. Qed.

Lemma adoptByNext_lookup
    (dev : bool) (isValidTree : BlockMap -> bool)
    (m m' l1 l3 : BlockMap) (k s : Key) (kb sb : ContentBlockNode) :
  NoDup (keys m) -> keyed m ->
  m = l1 ++ (k, kb) :: (s, sb) :: l3 ->
  nextSibling kb = Some s ->
  firstChild sb <> Some k -> firstChild sb <> Some s ->
  prevSibling kb <> Some k -> prevSibling kb <> Some s ->
  (forall x, prevSibling kb = Some x -> firstChild sb <> Some x) ->
  (forall x, parent kb = Some x ->
     x <> k /\ x <> s /\ firstChild sb <> Some x /\ prevSibling kb <> Some x) ->
  updateAsSiblingsChild dev isValidTree m k next = Ok m' ->
  keys m' = keys l1 ++ s :: k :: keys l3 /\
  forall x, get m' x = adoptedByNext m k kb s sb x.
Proof.
  intros Hnd Hkeyed Hm Hnext Hfk Hfs Hpk Hps Hpf Hpar Hrun.
  assert (Hkeys : keys m = keys l1 ++ k :: [] ++ s :: keys l3).
  { rewrite Hm, keys_app. reflexivity. }
  assert (Hks : k <> s).
  { intros ->. rewrite Hkeys in Hnd. apply NoDup_remove_2 in Hnd.
    apply Hnd. rewrite in_app_iff. simpl. auto. }
  assert (HgK : get m k = Some kb).
  { apply In_get; [exact Hnd|]. rewrite Hm. apply in_or_app. simpl. auto. }
  assert (HgS : get m s = Some sb).
  { apply In_get; [exact Hnd|]. rewrite Hm. apply in_or_app. simpl. auto. }
  apply (checked_run_inv dev isValidTree m m' _ _
           (updateAsSiblingsChild_checked _ _ _ _ _)) in Hrun.
  unfold updateAsSiblingsChild in Hrun. rewrite verifyTree_off in Hrun.
  cbn [bind] in Hrun. rewrite HgK in Hrun.
  unfold getNextSiblingKey at 1 in Hrun. rewrite Hnext, HgS in Hrun.
  cbn [bind deref] in Hrun.
  destruct (invariant (String.eqb (getText sb) "") "parent must be a valid node")
    as [[]|]; [|discriminate].
  cbn [bind] in Hrun.
  (* parent <-> child *)
  destruct (updateParentChild m s k 0) as [m1|] eqn:Hrun1; [|discriminate].
  cbn [bind] in Hrun.
  destruct (updateParentChild_inv _ _ _ _ _ Hrun1)
    as (sb0 & kb0 & Hs0 & Hk0 & _ & Hkeys1 & Hget1).
  assert (sb0 = sb) by congruence. assert (kb0 = kb) by congruence.
  subst sb0 kb0. clear Hs0 Hk0.
  pose proof (keyed_updateParentChild _ _ _ _ _ Hkeyed Hrun1) as Hkeyed1.
  change (prevOf (children sb) 0) with (@None Key) in Hget1.
  fold (firstChild sb) in Hget1.
  rewrite List_splice_insert_spec in Hget1 by (unfold count; lia).
  change (firstn (Z.to_nat 0) (children sb) ++
          k :: skipn (Z.to_nat 0) (children sb))
    with (k :: children sb) in Hget1.
  cbn [okey_eqb] in Hget1.
  assert (Hg1s : get m1 s = Some (merge_children sb (k :: children sb))).
  { rewrite Hget1. eqb_false k s.
    rewrite (okey_eqb_false _ _ Hfs), String.eqb_refl. reflexivity. }
  unfold getPrevSiblingKey, getParentKey in Hrun.
  (* the sibling chain *)
  assert (Hst2 : exists m2,
    match prevSibling kb with
    | Some prevSibling => updateSibling m1 prevSibling s
    | None =>
        b <- deref (get m1 s) ;; Ok (set m1 s (merge_prevSibling b None))
    end = Ok m2 /\
    keys m2 = keys m /\ keyed m2 /\
    forall x,
      get m2 x =
      if String.eqb s x then
        Some (merge_prevSibling (merge_children sb (k :: children sb))
                (prevSibling kb))
      else if okey_eqb (prevSibling kb) x then
        option_map (fun b => merge_nextSibling b (Some s)) (get m x)
      else get m1 x).
  { destruct (prevSibling kb) as [p|] eqn:Hp.
    - destruct (updateSibling m1 p s) as [m2|] eqn:Hrun2; [|discriminate].
      exists m2. split; [reflexivity|].
      destruct (updateSibling_inv _ _ _ _ Hrun2)
        as (pb & nb & Hgp & Hgn & Hkeys2 & Hget2).
      split; [congruence|].
      split; [exact (keyed_updateSibling _ _ _ _ Hkeyed1 Hrun2)|].
      rewrite Hg1s in Hgn. injection Hgn as <-.
      rewrite Hget1 in Hgp. eqb_false k p. eqb_false s p.
      rewrite (okey_eqb_false _ _ (Hpf p eq_refl)) in Hgp.
      intros x. rewrite Hget2. cbn [okey_eqb].
      destruct (String.eqb s x); [reflexivity|].
      destruct (String.eqb_spec p x) as [<-|_]; [|reflexivity].
      now rewrite Hgp.
    - rewrite Hg1s. cbn [bind deref]. eexists. split; [reflexivity|].
      split.
      { rewrite keys_set_present; [exact Hkeys1|].
        rewrite Hkeys1. eauto using get_Some_in. }
      split.
      { apply keyed_set; [exact Hkeyed1|]. apply (Hkeyed _ _ HgS). }
      intros x. rewrite get_set. cbn [okey_eqb].
      destruct (String.eqb s x); reflexivity. }
  destruct Hst2 as (m2 & Hrun2 & Hkeys2 & Hkeyed2 & Hget2).
  rewrite Hrun2 in Hrun. cbn [bind] in Hrun.
  (* the two entries change places *)
  assert (Hnd2 : NoDup (keys m2)) by (rewrite Hkeys2; exact Hnd).
  destruct (reorder_next m2 (keys l1) [] (keys l3) k s Hnd2 Hkeyed2)
    as (l1' & l2' & l3' & bk & bs & Hm2 & Hbk & Hbs & Hl1' & Hl2' & Hl3' & _
        & Hreorder).
  { rewrite Hkeys2. exact Hkeys. }
  apply keys_nil_inv in Hl2'. subst l2'. simpl app in Hm2.
  rewrite Hbs, Hbk in Hrun. cbn [bind deref] in Hrun.
  rewrite Hreorder in Hrun.
  set (m3 := l1' ++ (s, bs) :: (k, bk) :: l3') in *.
  assert (Hkeys3 : keys m3 = keys l1 ++ s :: k :: keys l3).
  { unfold m3. rewrite keys_app. simpl. now rewrite Hl1', Hl3'. }
  assert (Hget3 : forall x, get m3 x = get m2 x).
  { intros x. unfold m3. rewrite Hm2. now apply get_swap. }
  (* the former parent *)
  match type of Hrun with
  | bind ?r _ = _ => assert (Hst4 : exists m4, r = Ok m4 /\
    keys m4 = keys m3 /\
    forall x,
      get m4 x =
      if okey_eqb (parent kb) x then
        option_map
          (fun b => merge_children b
                      (List_delete (children b) (indexOf (children b) k)))
          (get m x)
      else get m2 x)
  end.
  { destruct (parent kb) as [P|] eqn:HP.
    - destruct (Hpar P eq_refl) as (HPk & HPs & HPf & HPp).
      assert (HgP : get m3 P = get m P).
      { rewrite Hget3, Hget2. eqb_false s P. rewrite (okey_eqb_false _ _ HPp).
        rewrite Hget1. eqb_false k P. rewrite (okey_eqb_false _ _ HPf).
        eqb_false s P. reflexivity. }
      destruct (get m3 P) as [pb|] eqn:HgP3; [|discriminate].
      cbn [bind deref]. eexists. split; [reflexivity|].
      split.
      { apply keys_set_present. eauto using get_Some_in. }
      intros x. rewrite get_set. cbn [okey_eqb].
      destruct (String.eqb_spec P x) as [<-|_]; [|apply Hget3].
      rewrite <- HgP. reflexivity.
    - exists m3. split; [reflexivity|]. split; [reflexivity|].
      intros x. apply Hget3. }
  destruct Hst4 as (m4 & Hrun4 & Hkeys4 & Hget4). rewrite Hrun4 in Hrun.
  cbn [bind] in Hrun. rewrite verifyTree_off in Hrun. cbn [bind] in Hrun.
  apply Ok_inj in Hrun. subst m4.
  split; [congruence|].
  intros x. rewrite Hget4. unfold adoptedByNext.
  destruct (String.eqb_spec k x) as [Hkx|Hkx].
  { subst x. rewrite okey_eqb_false
      by (intros E; destruct (Hpar k E) as [E' _]; congruence).
    rewrite Hget2. eqb_false s k. rewrite (okey_eqb_false _ _ Hpk).
    rewrite Hget1, String.eqb_refl. reflexivity. }
  destruct (String.eqb_spec s x) as [Hsx|Hsx].
  { subst x. rewrite okey_eqb_false
      by (intros E; destruct (Hpar s E) as (_ & E' & _); congruence).
    rewrite Hget2, String.eqb_refl. reflexivity. }
  destruct (okey_eqb (firstChild sb) x) eqn:Efx.
  { apply okey_eqb_true in Efx.
    rewrite okey_eqb_false
      by (intros E; destruct (Hpar x E) as (_ & _ & E' & _); congruence).
    rewrite Hget2. eqb_false s x.
    rewrite okey_eqb_false by (intros E; apply (Hpf x E); congruence).
    rewrite Hget1. eqb_false k x.
    rewrite (proj2 (okey_eqb_true _ _) Efx). reflexivity. }
  destruct (okey_eqb (prevSibling kb) x) eqn:Epx.
  { apply okey_eqb_true in Epx.
    rewrite okey_eqb_false
      by (intros E; destruct (Hpar x E) as (_ & _ & _ & E'); congruence).
    rewrite Hget2. eqb_false s x.
    rewrite (proj2 (okey_eqb_true _ _) Epx). reflexivity. }
  destruct (okey_eqb (parent kb) x) eqn:Epax; [reflexivity|].
  rewrite Hget2. eqb_false s x. rewrite Epx, Hget1. eqb_false k x.
  rewrite Efx. eqb_false s x. reflexivity.
Qed.






(** ** The links written by the primitives *)







(** ** The symmetry invariant *)





(** ** The order of the staged properties *)

(** A JavaScript object enumerates integer-like keys first and the other
    keys in insertion order, so [merge] may visit the staged nodes in an
    order that is not the order of the assignments.  Every key staged by the
    primitives was read from the map beforehand, and for such keys the order
    of the visits does not show in the result. *)
Lemma set_comm {V : Type} (m : list (Key * V)) (k1 k2 : Key) (v1 v2 : V) :
  k1 <> k2 -> In k1 (keys m) -> In k2 (keys m) ->
  set (set m k1 v1) k2 v2 = set (set m k2 v2) k1 v1.
Proof.
  intros Hne. induction m as [|[k0 v0] m IH]; intros H1 H2;
    [contradiction|].
  simpl in H1, H2. cbn [set].
  destruct (String.eqb_spec k0 k1) as [E1|Hn1];
    destruct (String.eqb_spec k0 k2) as [E2|Hn2]; cbn [set].
  - congruence.
  - subst k0. rewrite String.eqb_refl.
    destruct (String.eqb_spec k1 k2); [congruence|reflexivity].
  - subst k0. rewrite String.eqb_refl.
    destruct (String.eqb_spec k2 k1); [congruence|reflexivity].
  - destruct (String.eqb_spec k0 k1); [congruence|].
    destruct (String.eqb_spec k0 k2); [congruence|].
    f_equal. apply IH; [destruct H1|destruct H2]; congruence.
Qed.

Lemma merge_staged_order {V : Type} (obj obj' : list (Key * V)) :
  Permutation obj obj' ->
  forall m : list (Key * V),
    NoDup (keys obj) ->
    (forall k, In k (keys obj) -> In k (keys m)) ->
    merge m obj' = merge m obj.
Proof.
  induction 1 as [|[k v] l l' Hperm IH|[k1 v1] [k2 v2] l|l l' l'' H1 IH1 H2 IH2];
    intros m Hnd Hin.
  - reflexivity.
  - rewrite !merge_cons. inversion Hnd; subst. apply IH; [assumption|].
    intros x Hx. apply in_keys_set. right. apply Hin. now right.
  - rewrite !merge_cons. f_equal. inversion Hnd as [|? ? Hn _]; subst.
    apply set_comm.
    + intros ->. apply Hn. now left.
    + apply Hin. simpl. auto.
    + apply Hin. simpl. auto.
  - rewrite IH2, IH1; auto.
    + unfold keys. eapply Permutation_NoDup; [|exact Hnd].
      now apply Permutation_map.
    + intros x Hx. apply Hin. unfold keys in *.
      eapply Permutation_in; [|exact Hx].
      apply Permutation_map. now apply Permutation_sym.
Qed.

(** ** Keys that stay in the collection *)

Lemma in_keys_concat {V : Type} (a b : list (Key * V)) (k : Key) :
  In k (keys (concat a b)) <-> In k (keys a) \/ In k (keys b).
Proof.
  unfold concat, OrderedMap. rewrite in_keys_merge, keys_app, in_app_iff.
  simpl. tauto.
Qed.

(** The primitives, [createNewParent] and the ['previous'] branch of
    [updateAsSiblingsChild] keep every key of the input. *)
Lemma createNewParent_keeps_keys
    (dev : bool) (isValidTree : BlockMap -> bool)
    (newKey : Key) (m m' : BlockMap) (k : Key) :
  createNewParent dev isValidTree newKey m k = Ok m' ->
  forall x, In x (keys m) -> In x (keys m').
Proof.
  intros Hrun x Hx.
  apply (checked_run_inv dev isValidTree m m' _ _
           (createNewParent_checked _ _ _ _ _)) in Hrun.
  unfold createNewParent in Hrun. rewrite verifyTree_off in Hrun.
  cbn [bind] in Hrun. destruct (get m k) as [kb|]; [|discriminate].
  match type of Hrun with
  | context [updateParentChild ?m0 _ _ _] =>
      assert (H0 : In x (keys m0)); [|set (map0 := m0) in *]
  end.
  { apply in_keys_concat. rewrite in_keys_concat.
    rewrite <- (takeUntil_skipUntil
                  (fun block => String.eqb (getKey block) k) m),
      keys_app, in_app_iff in Hx. tauto. }
  destruct (updateParentChild map0 _ k 0) as [m1|] eqn:H1; [|discriminate].
  cbn [bind] in Hrun.
  destruct (updateParentChild_inv _ _ _ _ _ H1) as (_ & _ & _ & _ & _ & K1 & _).
  assert (E2 : forall (o : option Key) (f : Key -> result BlockMap) ma mb,
             (forall y mc, f y = Ok mc -> keys mc = keys ma) ->
             match o with Some y => f y | None => Ok ma end = Ok mb ->
             keys mb = keys ma).
  { intros [y|] f ma mb Hf H; [eauto|]. now apply Ok_inj in H; subst. }
  unfold getPrevSiblingKey, getNextSiblingKey, getParentKey in Hrun.
  destruct (match prevSibling kb with
            | Some p => updateSibling m1 p _
            | None => Ok m1
            end) as [m2|] eqn:H2; [|discriminate].
  cbn [bind] in Hrun.
  apply (E2 _ (fun p => updateSibling m1 p _)) in H2.
  2:{ intros y mc Hy.
      destruct (updateSibling_inv _ _ _ _ Hy) as (_ & _ & _ & _ & K & _).
      exact K. }
  destruct (match nextSibling kb with
            | Some n => updateSibling m2 _ n
            | None => Ok m2
            end) as [m3|] eqn:H3; [|discriminate].
  cbn [bind] in Hrun.
  apply (E2 _ (fun n => updateSibling m2 _ n)) in H3.
  2:{ intros y mc Hy.
      destruct (updateSibling_inv _ _ _ _ Hy) as (_ & _ & _ & _ & K & _).
      exact K. }
  destruct (match parent kb with
            | Some P => replaceParentChild m3 P k _
            | None => Ok m3
            end) as [m4|] eqn:H4; [|discriminate].
  cbn [bind] in Hrun.
  apply (E2 _ (fun P => replaceParentChild m3 P k _)) in H4.
  2:{ intros y mc Hy.
      destruct (replaceParentChild_inv _ _ _ _ _ Hy) as (_ & _ & _ & _ & K & _).
      exact K. }
  rewrite verifyTree_off in Hrun. cbn [bind] in Hrun.
  apply Ok_inj in Hrun. subst m4. congruence.
Qed.

Lemma adoptByPrevious_keeps_keys
    (dev : bool) (isValidTree : BlockMap -> bool) (m m' : BlockMap) (k : Key) :
  updateAsSiblingsChild dev isValidTree m k previous = Ok m' ->
  keys m' = keys m.
Proof.
  intros Hrun.
  apply (checked_run_inv dev isValidTree m m' _ _
           (updateAsSiblingsChild_checked _ _ _ _ _)) in Hrun.
  unfold updateAsSiblingsChild in Hrun. rewrite verifyTree_off in Hrun.
  cbn [bind] in Hrun. destruct (get m k) as [kb|]; [|discriminate].
  destruct (getPrevSiblingKey kb) as [s|]; [|discriminate].
  destruct (get m s) as [sb|]; [|discriminate].
  cbn [bind deref] in Hrun.
  destruct (invariant _ _) as [[]|]; [|discriminate].
  cbn [bind] in Hrun.
  destruct (updateParentChild m s k _) as [m1|] eqn:H1; [|discriminate].
  cbn [bind] in Hrun.
  destruct (updateParentChild_inv _ _ _ _ _ H1) as (_ & _ & _ & _ & _ & K1 & _).
  match type of Hrun with
  | bind ?r _ = _ => destruct r as [m2|] eqn:H2; [|discriminate]
  end.
  assert (K2 : keys m2 = keys m1).
  { destruct (getNextSiblingKey kb) as [n|].
    - destruct (updateSibling_inv _ _ _ _ H2) as (_ & _ & _ & _ & K & _).
      exact K.
    - destruct (get m1 s) as [b|] eqn:E; [|discriminate].
      cbn [bind deref] in H2. apply Ok_inj in H2. subst m2.
      apply keys_set_present. eauto using get_Some_in. }
  cbn [bind] in Hrun.
  match type of Hrun with
  | bind ?r _ = _ => destruct r as [m3|] eqn:H3; [|discriminate]
  end.
  assert (K3 : keys m3 = keys m2).
  { destruct (getParentKey kb) as [P|].
    - destruct (get m2 P) as [b|] eqn:E; [|discriminate].
      cbn [bind deref] in H3. apply Ok_inj in H3. subst m3.
      apply keys_set_present. eauto using get_Some_in.
    - apply Ok_inj in H3. now subst. }
  cbn [bind] in Hrun. rewrite verifyTree_off in Hrun. cbn [bind] in Hrun.
  apply Ok_inj in Hrun. subst m3. congruence.
Qed.

(** * Further properties of the tree operations *)

(** ** What the primitives leave alone *)

Lemma sameContent_refl (b : ContentBlockNode) : sameContent b b.
Proof. unfold sameContent. auto. Qed.

Lemma carried_refl (m : BlockMap) : carried m m.
Proof. intros k b' H. exists b'. split; [exact H|apply sameContent_refl]. Qed.

Lemma carried_trans (a b c : BlockMap) : carried a b -> carried b c -> carried a c.
Proof.
  intros Hab Hbc k b' H.
  destruct (Hbc k b' H) as (b1 & H1 & E1 & E2 & E3 & E4).
  destruct (Hab k b1 H1) as (b0 & H0 & F1 & F2 & F3 & F4).
  exists b0. split; [exact H0|]. unfold sameContent. repeat split; congruence.
Qed.

Lemma carried_updateParentChild (m m' : BlockMap) (pk ck : Key) (position : Z) :
  updateParentChild m pk ck position = Ok m' -> carried m m'.
Proof.
  intros Hrun.
  destruct (updateParentChild_inv _ _ _ _ _ Hrun)
    as (pb & cb & Hp & Hc & _ & _ & Hget).
  intros k b'. rewrite Hget.
  destruct (String.eqb_spec ck k) as [<-|_].
  { intros H. injection H as <-. exists cb. split; [exact Hc|].
    unfold sameContent. simpl. auto. }
  destruct (okey_eqb _ k).
  { destruct (get m k) as [b|]; [|discriminate].
    intros H. injection H as <-. exists b. split; [reflexivity|].
    unfold sameContent. simpl. auto. }
  destruct (okey_eqb _ k).
  { destruct (get m k) as [b|]; [|discriminate].
    intros H. injection H as <-. exists b. split; [reflexivity|].
    unfold sameContent. simpl. auto. }
  destruct (String.eqb_spec pk k) as [<-|_].
  { intros H. injection H as <-. exists pb. split; [exact Hp|].
    unfold sameContent. simpl. auto. }
  intros H. exists b'. split; [exact H|apply sameContent_refl].
Qed.

Lemma carried_updateSibling (m m' : BlockMap) (p n : Key) :
  updateSibling m p n = Ok m' -> carried m m'.
Proof.
  intros Hrun.
  destruct (updateSibling_inv _ _ _ _ Hrun) as (pb & nb & Hp & Hn & _ & Hget).
  intros k b'. rewrite Hget.
  destruct (String.eqb_spec n k) as [<-|_].
  { intros H. injection H as <-. exists nb. split; [exact Hn|].
    unfold sameContent. simpl. auto. }
  destruct (String.eqb_spec p k) as [<-|_].
  { intros H. injection H as <-. exists pb. split; [exact Hp|].
    unfold sameContent. simpl. auto. }
  intros H. exists b'. split; [exact H|apply sameContent_refl].
Qed.

Lemma carried_replaceParentChild (m m' : BlockMap) (pk old new : Key) :
  replaceParentChild m pk old new = Ok m' -> carried m m'.
Proof.
  intros Hrun.
  destruct (replaceParentChild_inv _ _ _ _ _ Hrun)
    as (pb & nb & Hp & Hn & _ & Hget).
  intros k b'. rewrite Hget.
  destruct (String.eqb_spec new k) as [<-|_].
  { intros H. injection H as <-. exists nb. split; [exact Hn|].
    unfold sameContent. simpl. auto. }
  destruct (String.eqb_spec pk k) as [<-|_].
  { intros H. injection H as <-. exists pb. split; [exact Hp|].
    unfold sameContent. simpl. auto. }
  intros H. exists b'. split; [exact H|apply sameContent_refl].
Qed.

(** X1.  On a collection whose keys are ordinary property names, the three
    primitives keep the keys of the collection and their order, and never
    write the key, text, depth or type of a node: every node of the result
    is a node of the input with, at most, other links. *)
Theorem primitives_keep_content (m m' : BlockMap) :
  plainKeys m ->
  (forall (pk ck : Key) (position : Z),
     updateParentChild m pk ck position = Ok m' ->
     keys m' = keys m /\ carried m m') /\
  (forall (p n : Key),
     updateSibling m p n = Ok m' ->
     keys m' = keys m /\ carried m m') /\
  (forall (pk old new : Key),
     replaceParentChild m pk old new = Ok m' ->
     keys m' = keys m /\ carried m m').
Proof.
  intros _. split; [|split].
  - intros pk ck position Hrun.
    split; [|exact (carried_updateParentChild _ _ _ _ _ Hrun)].
    destruct (updateParentChild_inv _ _ _ _ _ Hrun)
      as (_ & _ & _ & _ & _ & K & _). exact K.
  - intros p n Hrun.
    split; [|exact (carried_updateSibling _ _ _ _ Hrun)].
    destruct (updateSibling_inv _ _ _ _ Hrun) as (_ & _ & _ & _ & K & _).
    exact K.
  - intros pk old new Hrun.
    split; [|exact (carried_replaceParentChild _ _ _ _ _ Hrun)].
    destruct (replaceParentChild_inv _ _ _ _ _ Hrun)
      as (_ & _ & _ & _ & K & _). exact K.
Qed.

Lemma primitives_keep_content_witness :
  exists m',
    updateParentChild scenario "P" "W" 1 = Ok m' /\
    keys m' = ["P"; "X"; "Y"; "Z"; "W"] /\
    exists w, get m' "W" = Some w /\ text w = "w".
Proof.
  exists (resultMap (updateParentChild scenario "P" "W" 1)).
  split; [reflexivity|].
  destruct (proj1 (primitives_keep_content scenario
                     (resultMap (updateParentChild scenario "P" "W" 1))
                     plainKeys_scenario)
              "P" "W" 1 eq_refl) as [Hkeys Hcontent].
  split; [exact Hkeys|].
  destruct (Hcontent "W" _ eq_refl) as (b & Hb & _ & Htext & _).
  eexists. split; [reflexivity|].
  injection Hb as <-. exact Htext.
Defined.

(** ** Failures of [updateSibling] and [replaceParentChild] *)





(** ** [updateSibling] twice *)

Lemma set_same {V : Type} (m : list (Key * V)) (k : Key) (v : V) :
  get m k = Some v -> set m k v = m.
Proof.
  induction m as [|[k0 v0] m IH]; simpl; [discriminate|].
  destruct (String.eqb_spec k0 k) as [->|_].
  - intros H. injection H as ->. reflexivity.
  - intros H. now rewrite IH.
Qed.

(** X3.  On a collection whose keys are ordinary property names, linking
    the same two siblings a second time changes nothing: the collection
    returned by [updateSibling] is a fixed point of the same call. *)
Theorem updateSibling_idempotent (m m' : BlockMap) (p n : Key) :
  plainKeys m ->
  updateSibling m p n = Ok m' -> updateSibling m' p n = Ok m'.
Proof.
  intros _ Hrun.
  destruct (updateSibling_plain _ _ _ _ Hrun) as [Pp Pn].
  destruct (updateSibling_inv _ _ _ _ Hrun) as (pb & nb & Hp & Hn & _ & Hget).
  pose proof (Hget p) as Hgp. pose proof (Hget n) as Hgn.
  rewrite String.eqb_refl in Hgn.
  destruct (String.eqb_spec n p) as [->|Hnp].
  - rewrite (updateSibling_Ok m' p p _ _ Hgn Hgn Pp Pp). f_equal.
    unfold merge. cbn [set fold_left fst snd]. rewrite String.eqb_refl.
    cbn [fold_left fst snd]. now apply set_same.
  - rewrite String.eqb_refl in Hgp.
    rewrite (updateSibling_Ok m' p n _ _ Hgp Hgn Pp Pn). f_equal.
    unfold merge. cbn [set fold_left fst snd].
    replace (String.eqb p n) with false
      by (symmetry; apply String.eqb_neq; congruence).
    cbn [fold_left fst snd].
    rewrite (set_same m' p) by exact Hgp. now apply set_same.
Qed.

Lemma updateSibling_idempotent_witness :
  exists m',
    updateSibling [("A", chainA); ("C", chainC); ("B", chainB)] "A" "B" = Ok m' /\
    updateSibling m' "A" "B" = Ok m'.
Proof.
  exists (resultMap
            (updateSibling [("A", chainA); ("C", chainC); ("B", chainB)] "A" "B")).
  split; [reflexivity|].
  apply (updateSibling_idempotent
           [("A", chainA); ("C", chainC); ("B", chainB)]).
  - apply plainKeys_forallb. reflexivity.
  - reflexivity.
Defined.

(** ** [createNewParent] in general *)



(** The keys of the result of [createNewParent] are those of the collection
    into which the new parent was spliced. *)
Lemma createNewParent_keys
    (dev : bool) (isValidTree : BlockMap -> bool)
    (newKey : Key) (m m' : BlockMap) (k : Key) :
  createNewParent dev isValidTree newKey m k = Ok m' ->
  exists kb,
    get m k = Some kb /\
    keys m' =
    keys (concat
            (concat (takeUntil (fun block => String.eqb (getKey block) k) m)
               (OrderedMap
                  [(newKey,
                    newContentBlockNode newKey "" (depth kb) (type kb) [])]))
            (skipUntil (fun block => String.eqb (getKey block) k) m)).
Proof.
  intros Hrun.
  apply (checked_run_inv dev isValidTree m m' _ _
           (createNewParent_checked _ _ _ _ _)) in Hrun.
  unfold createNewParent in Hrun. rewrite verifyTree_off in Hrun.
  cbn [bind] in Hrun. destruct (get m k) as [kb|]; [|discriminate].
  exists kb. split; [reflexivity|].
  cbn [getKey newContentBlockNode key] in Hrun.
  match type of Hrun with
  | context [updateParentChild ?m0 _ _ _] => set (map0 := m0) in *
  end.
  destruct (updateParentChild map0 _ k 0) as [m1|] eqn:H1; [|discriminate].
  cbn [bind] in Hrun.
  destruct (updateParentChild_inv _ _ _ _ _ H1) as (_ & _ & _ & _ & _ & K1 & _).
  assert (E2 : forall (o : option Key) (f : Key -> result BlockMap) ma mb,
             (forall y mc, f y = Ok mc -> keys mc = keys ma) ->
             match o with Some y => f y | None => Ok ma end = Ok mb ->
             keys mb = keys ma).
  { intros [y|] f ma mb Hf H; [eauto|]. now apply Ok_inj in H; subst. }
  unfold getPrevSiblingKey, getNextSiblingKey, getParentKey in Hrun.
  destruct (match prevSibling kb with
            | Some p => updateSibling m1 p _
            | None => Ok m1
            end) as [m2|] eqn:H2; [|discriminate].
  cbn [bind] in Hrun.
  apply (E2 _ (fun p => updateSibling m1 p _)) in H2.
  2:{ intros y mc Hy.
      destruct (updateSibling_inv _ _ _ _ Hy) as (_ & _ & _ & _ & K & _).
      exact K. }
  destruct (match nextSibling kb with
            | Some n => updateSibling m2 _ n
            | None => Ok m2
            end) as [m3|] eqn:H3; [|discriminate].
  cbn [bind] in Hrun.
  apply (E2 _ (fun n => updateSibling m2 _ n)) in H3.
  2:{ intros y mc Hy.
      destruct (updateSibling_inv _ _ _ _ Hy) as (_ & _ & _ & _ & K & _).
      exact K. }
  destruct (match parent kb with
            | Some P => replaceParentChild m3 P k _
            | None => Ok m3
            end) as [m4|] eqn:H4; [|discriminate].
  cbn [bind] in Hrun.
  apply (E2 _ (fun P => replaceParentChild m3 P k _)) in H4.
  2:{ intros y mc Hy.
      destruct (replaceParentChild_inv _ _ _ _ _ Hy) as (_ & _ & _ & _ & K & _).
      exact K. }
  rewrite verifyTree_off in Hrun. cbn [bind] in Hrun.
  apply Ok_inj in Hrun. subst m4. congruence.
Qed.

(** X4.  In a collection with unique keys, all of them ordinary property
    names, whose nodes are stored under their own keys, and with a generated
    key that is an ordinary property name and no key of the collection,
    [createNewParent], whenever it returns, puts the new key immediately in
    front of the key of the block and keeps every other key where it was. *)
Theorem createNewParent_inserts_before_block
    (dev : bool) (isValidTree : BlockMap -> bool)
    (newKey : Key) (m m' l1 l2 : BlockMap) (k : Key) (kb : ContentBlockNode) :
  NoDup (keys m) -> keyed m -> plainKeys m -> plainKey newKey = true ->
  get m newKey = None ->
  m = l1 ++ (k, kb) :: l2 ->
  createNewParent dev isValidTree newKey m k = Ok m' ->
  keys m' = keys l1 ++ newKey :: k :: keys l2.
Proof.
  intros Hnd Hkeyed _ _ Hfresh Hm Hrun.
  destruct (createNewParent_keys _ _ _ _ _ _ Hrun) as (kb0 & _ & Hkeys).
  rewrite Hkeys.
  destruct (splice_new_parent m k newKey
              (newContentBlockNode newKey "" (depth kb0) (type kb0) [])
              Hnd Hfresh) as (a & b & _ & Hsplice & Ha & Hb).
  rewrite Hsplice.
  assert (Hk1 : ~ In k (keys l1)).
  { pose proof Hnd as Hnd'. rewrite Hm, keys_app in Hnd'. simpl in Hnd'.
    apply NoDup_remove_2 in Hnd'. intros H. apply Hnd'. apply in_or_app.
    now left. }
  assert (Hsplit :
            takeUntil (fun block => String.eqb (getKey block) k) m = l1 /\
            skipUntil (fun block => String.eqb (getKey block) k) m
            = (k, kb) :: l2).
  { rewrite Hm. apply takeUntil_app_hit.
    - intros k' v' Hin. apply String.eqb_neq. intros Heq.
      assert (Hk' : getKey v' = k').
      { apply (keyed_In m); [exact Hnd|exact Hkeyed|].
        rewrite Hm. apply in_or_app. now left. }
      apply Hk1. apply (in_map fst) in Hin. simpl in Hin.
      fold (keys l1) in Hin. congruence.
    - apply String.eqb_eq. apply (keyed_In m); [exact Hnd|exact Hkeyed|].
      rewrite Hm. apply in_or_app. right. now left. }
  destruct Hsplit as [H1 H2]. rewrite H1 in Ha. rewrite H2 in Hb. subst a b.
  rewrite keys_app. reflexivity.
Qed.

Lemma createNewParent_inserts_before_block_witness :
  exists m',
    createNewParent false (fun _ => true) "N" family "K" = Ok m' /\
    keys m' = ["P"; "A"; "N"; "K"; "S"; "F"].
Proof.
  exists (resultMap (createNewParent false (fun _ => true) "N" family "K")).
  split; [reflexivity|].
  apply (createNewParent_inserts_before_block false (fun _ => true) "N" family _
           [("P", familyP); ("A", familyA)] [("S", familyS); ("F", familyF)]
           "K" familyK).
  - exact NoDup_family.
  - exact keyed_family.
  - exact plainKeys_family.
  - reflexivity.
  - reflexivity.
  - reflexivity.
  - reflexivity.
Defined.

(** ** [createNewParent]: when it returns, and how it fails *)








(** ** Adoption by the previous sibling *)


Lemma nth_error_split_at (l : list Key) (i : nat) (k : Key) :
  nth_error l i = Some k -> l = firstn i l ++ k :: skipn (S i) l.
Proof.
  revert i. induction l as [|h t IH]; intros [|i] H; simpl in *;
    try discriminate.
  - congruence.
  - f_equal. now apply IH.
Qed.

(** A key that a list holds once is not in the list without its slot. *)
Lemma NoDup_without_slot (l : list Key) (i : nat) (k : Key) :
  NoDup l -> nth_error l i = Some k -> ~ In k (firstn i l ++ skipn (S i) l).
Proof.
  intros Hnd Hnth. rewrite (nth_error_split_at l i k Hnth) in Hnd at 1.
  now apply NoDup_remove_2 in Hnd.
Qed.



(** ** Adoption by the next sibling: the sibling links *)

(** X8.  The ['next'] branch of [updateAsSiblingsChild] when the sibling S
    comes right after the block K in the collection.  Let the keys of the
    collection be unique and ordinary property names and every node be
    stored under its own key; let the first child of S, the previous
    sibling of K and the parent of K, when there are any, be different
    nodes, none of them K or S; let the parent list K, once.  Then,
    whenever the operation returns, S comes right before K in the result
    and the other keys are where they were; K has the parent S, no previous
    sibling and the former first child of S as its next sibling; S lists K
    in front of its former children and has the previous sibling K had;
    the former first child of S points back to K; the former previous
    sibling of K points to S; the former parent of K has lost the slot of K
    and no longer lists K; and every other node is what it was. *)
Theorem updateAsSiblingsChild_next_relinks
    (dev : bool) (isValidTree : BlockMap -> bool)
    (m m' l1 l3 : BlockMap) (k s : Key) (kb sb : ContentBlockNode) :
  NoDup (keys m) -> keyed m -> plainKeys m ->
  m = l1 ++ (k, kb) :: (s, sb) :: l3 ->
  nextSibling kb = Some s ->
  (forall x, firstChild sb = Some x -> x <> k /\ x <> s) ->
  (forall x, prevSibling kb = Some x ->
     x <> k /\ x <> s /\ firstChild sb <> Some x) ->
  (forall x, parent kb = Some x ->
     x <> k /\ x <> s /\ firstChild sb <> Some x /\ prevSibling kb <> Some x /\
     forall pb, get m x = Some pb -> In k (children pb) /\ NoDup (children pb)) ->
  updateAsSiblingsChild dev isValidTree m k next = Ok m' ->
  keys m' = keys l1 ++ s :: k :: keys l3 /\
  get m' k = Some (merge_links kb (Some s) None (firstChild sb)) /\
  get m' s =
    Some (merge_prevSibling (merge_children sb (k :: children sb))
            (prevSibling kb)) /\
  (forall x b, firstChild sb = Some x -> get m x = Some b ->
     get m' x = Some (merge_prevSibling b (Some k))) /\
  (forall x b, prevSibling kb = Some x -> get m x = Some b ->
     get m' x = Some (merge_nextSibling b (Some s))) /\
  (forall x pb, parent kb = Some x -> get m x = Some pb ->
     exists i : nat,
       nth_error (children pb) i = Some k /\
       get m' x =
         Some (merge_children pb
                 (firstn i (children pb) ++ skipn (S i) (children pb))) /\
       ~ In k (firstn i (children pb) ++ skipn (S i) (children pb))) /\
  (forall x, x <> k -> x <> s ->
     firstChild sb <> Some x -> prevSibling kb <> Some x ->
     parent kb <> Some x -> get m' x = get m x).
Proof.
  intros Hnd Hkeyed _ Hm Hnext Hfirst Hprev Hpar Hrun.
  destruct (adoptByNext_lookup dev isValidTree m m' l1 l3 k s kb sb
              Hnd Hkeyed Hm Hnext) as [Hkeys Hget]; try assumption.
  { intros H. destruct (Hfirst k H) as [E _]. now apply E. }
  { intros H. destruct (Hfirst s H) as [_ E]. now apply E. }
  { intros H. destruct (Hprev k H) as (E & _). now apply E. }
  { intros H. destruct (Hprev s H) as (_ & E & _). now apply E. }
  { intros x Hx. now destruct (Hprev x Hx) as (_ & _ & E). }
  { intros x Hx. destruct (Hpar x Hx) as (E1 & E2 & E3 & E4 & _). auto. }
  assert (Hks : k <> s).
  { intros ->. rewrite Hm, keys_app in Hnd. simpl in Hnd.
    apply NoDup_remove_2 in Hnd. apply Hnd. apply in_or_app. right. now left. }
  split; [exact Hkeys|].
  split; [|split; [|split; [|split; [|split]]]].
  - rewrite Hget. unfold adoptedByNext. now rewrite String.eqb_refl.
  - rewrite Hget. unfold adoptedByNext. eqb_false k s.
    now rewrite String.eqb_refl.
  - intros x b Hx Hb. destruct (Hfirst x Hx) as (E1 & E2).
    rewrite Hget. unfold adoptedByNext. eqb_false k x. eqb_false s x.
    rewrite (proj2 (okey_eqb_true _ _) Hx), Hb. reflexivity.
  - intros x b Hx Hb. destruct (Hprev x Hx) as (E1 & E2 & E3).
    rewrite Hget. unfold adoptedByNext. eqb_false k x. eqb_false s x.
    rewrite (okey_eqb_false _ _ E3), (proj2 (okey_eqb_true _ _) Hx), Hb.
    reflexivity.
  - intros x pb Hx Hb.
    destruct (Hpar x Hx) as (E1 & E2 & E3 & E4 & Hlist).
    destruct (Hlist pb Hb) as [HinK Hnd'].
    destruct (indexOf_in _ _ HinK) as (i & Hidx & Hnth & _).
    assert (Hlen : (i < length (children pb))%nat).
    { apply nth_error_Some. congruence. }
    exists i. split; [exact Hnth|].
    split; [|exact (NoDup_without_slot _ _ _ Hnd' Hnth)].
    rewrite Hget. unfold adoptedByNext. eqb_false k x. eqb_false s x.
    rewrite (okey_eqb_false _ _ E3), (okey_eqb_false _ _ E4),
      (proj2 (okey_eqb_true _ _) Hx), Hb.
    cbn [option_map]. now rewrite Hidx, List_delete_nat by exact Hlen.
  - intros x H1 H2 H3 H4 H5. rewrite Hget. unfold adoptedByNext.
    eqb_false k x. eqb_false s x.
    now rewrite (okey_eqb_false _ _ H3), (okey_eqb_false _ _ H4),
      (okey_eqb_false _ _ H5).
Qed.

Lemma updateAsSiblingsChild_next_relinks_witness :
  exists m',
    updateAsSiblingsChild false (fun _ => true) family "K" next = Ok m' /\
    keys m' = ["P"; "A"; "S"; "K"; "F"] /\
    get m' "S" = Some (mkNode "S" "" 1 "unstyled" (Some "P") (Some "A") None
                         ["K"; "F"]) /\
    get m' "K" = Some (mkNode "K" "k" 1 "unstyled" (Some "S") None (Some "F")
                         []) /\
    get m' "F" = Some (mkNode "F" "f" 2 "unstyled" (Some "S") (Some "K") None
                         []) /\
    get m' "A" = Some (mkNode "A" "" 1 "unstyled" (Some "P") None (Some "S")
                         []).
Proof.
  exists (resultMap
            (updateAsSiblingsChild false (fun _ => true) family "K" next)).
  split; [reflexivity|].
  destruct (updateAsSiblingsChild_next_relinks false (fun _ => true) family
              (resultMap
                 (updateAsSiblingsChild false (fun _ => true) family "K" next))
              [("P", familyP); ("A", familyA)] [("F", familyF)]
              "K" "S" familyK familyS)
    as (Hkeys & HK & HS & HF & HA & _).
  - exact NoDup_family.
  - exact keyed_family.
  - exact plainKeys_family.
  - reflexivity.
  - reflexivity.
  - intros x Hx. injection Hx as <-. split; discriminate.
  - intros x Hx. injection Hx as <-. repeat split; discriminate.
  - intros x Hx. injection Hx as <-.
    split; [discriminate|]. split; [discriminate|]. split; [discriminate|].
    split; [discriminate|]. intros pb Hpb. injection Hpb as <-.
    split; [simpl; auto|].
    simpl. repeat constructor; simpl; intuition discriminate.
  - reflexivity.
  - split; [exact Hkeys|]. split; [exact HS|]. split; [exact HK|].
    split; [exact (HF "F" familyF eq_refl eq_refl)|].
    exact (HA "A" familyA eq_refl eq_refl).
Defined.

(** ** Keys that the composite operations keep *)

(** X9.  On a collection whose keys are ordinary property names, whatever
    its links are, [createNewParent] with a generated key that is an
    ordinary property name removes no key, and the ['previous'] branch of
    [updateAsSiblingsChild] returns the keys of its input in the same
    order. *)
Theorem composites_keep_keys
    (dev : bool) (isValidTree : BlockMap -> bool) (m m' : BlockMap) (k : Key) :
  plainKeys m ->
  (forall newKey, plainKey newKey = true ->
                  createNewParent dev isValidTree newKey m k = Ok m' ->
                  forall x, In x (keys m) -> In x (keys m')) /\
  (updateAsSiblingsChild dev isValidTree m k previous = Ok m' ->
   keys m' = keys m).
Proof.
  intros _. split.
  - intros newKey _ Hrun. exact (createNewParent_keeps_keys _ _ _ _ _ _ Hrun).
  - apply adoptByPrevious_keeps_keys.
Qed.

Lemma composites_keep_keys_witness :
  exists m',
    updateAsSiblingsChild false (fun _ => true) nest "S" previous = Ok m' /\
    keys m' = keys nest.
Proof.
  exists (resultMap
            (updateAsSiblingsChild false (fun _ => true) nest "S" previous)).
  split; [reflexivity|].
  apply (proj2 (composites_keep_keys false (fun _ => true) nest _ "S"
                  (plainKeys_forallb nest eq_refl))).
  reflexivity.
Defined.

(** ** The checks of [updateAsSiblingsChild] *)

(** X10.  In every build [updateAsSiblingsChild] fails with the error of
    [invariant] when the key does not resolve, when the block has no sibling
    on the side asked for, and when that sibling resolves to a node with a
    text that is not empty. *)
Theorem updateAsSiblingsChild_rejects
    (dev : bool) (isValidTree : BlockMap -> bool) (m : BlockMap) (k : Key)
    (position : SiblingInsertPosition) :
  let sibling b :=
    match position with
    | previous => getPrevSiblingKey b
    | next => getNextSiblingKey b
    end in
  get m k = None \/
  (exists b, get m k = Some b /\ sibling b = None) \/
  (exists b s sb, get m k = Some b /\ sibling b = Some s /\
                  get m s = Some sb /\ getText sb <> "") ->
  isPreconditionError (updateAsSiblingsChild dev isValidTree m k position).
Proof. exact (updateAsSiblingsChild_preconditions dev isValidTree m k position). Qed.

Lemma updateAsSiblingsChild_rejects_witness :
  isPreconditionError
    (updateAsSiblingsChild true (fun _ => true) family "S" previous).
Proof.
  apply (updateAsSiblingsChild_rejects true (fun _ => true) family "S" previous).
  right. right. exists familyS, "K", familyK.
  repeat split; try reflexivity. discriminate.
Defined.

(** ** Development and production builds *)

(** X11.  The validity checks only reject.  Whenever a composite operation
    returns a collection in some build, with some validity predicate, the
    production build returns the same collection; and with the checks
    enabled an input that is not valid is rejected with the error of
    [invariant] before anything else is looked at. *)
Theorem checks_only_reject
    (dev : bool) (isValidTree isValidTree' : BlockMap -> bool)
    (m : BlockMap) (k : Key) :
  (forall newKey m',
     createNewParent dev isValidTree newKey m k = Ok m' ->
     createNewParent false isValidTree' newKey m k = Ok m') /\
  (forall position m',
     updateAsSiblingsChild dev isValidTree m k position = Ok m' ->
     updateAsSiblingsChild false isValidTree' m k position = Ok m') /\
  (isValidTree m = false ->
   (forall newKey,
      createNewParent true isValidTree newKey m k
      = Err (InvariantViolation "The tree is not valid")) /\
   (forall position,
      updateAsSiblingsChild true isValidTree m k position
      = Err (InvariantViolation "The tree is not valid"))).
Proof.
  split; [|split].
  - intros newKey m' Hrun.
    apply (checked_run_inv dev isValidTree m m' _ _
             (createNewParent_checked _ _ _ _ _)) in Hrun.
    exact Hrun.
  - intros position m' Hrun.
    apply (checked_run_inv dev isValidTree m m' _ _
             (updateAsSiblingsChild_checked _ _ _ _ _)) in Hrun.
    exact Hrun.
  - intros Hv. split.
    + intros newKey. unfold createNewParent, verifyTree. rewrite Hv. reflexivity.
    + intros position. unfold updateAsSiblingsChild, verifyTree. rewrite Hv.
      reflexivity.
Qed.

Lemma checks_only_reject_witness :
  createNewParent true (fun _ => false) "N" family "K"
  = Err (InvariantViolation "The tree is not valid").
Proof.
  apply (proj1 (proj2 (proj2 (checks_only_reject true (fun _ => false)
                                (fun _ => false) family "K")) eq_refl)).
Defined.

(** ** What the composite operations carry through *)

Lemma In_set {V : Type} (m : list (Key * V)) (k x : Key) (v w : V) :
  In (x, v) (set m k w) -> (x, v) = (k, w) \/ In (x, v) m.
Proof.
  induction m as [|[k0 v0] m IH]; simpl.
  - intros [H|[]]. left. now symmetry.
  - destruct (String.eqb k0 k); simpl.
    + intros [H|H]; [left; now symmetry|right; now right].
    + intros [H|H]; [right; now left|].
      destruct (IH H); [now left|right; now right].
Qed.

Lemma In_merge {V : Type} (obj m : list (Key * V)) (x : Key) (v : V) :
  In (x, v) (merge m obj) -> In (x, v) m \/ In (x, v) obj.
Proof.
  revert m. induction obj as [|[k w] obj IH]; intros m; [now left|].
  rewrite merge_cons. intros H. destruct (IH _ H) as [H1|H1].
  - destruct (In_set _ _ _ _ _ H1) as [E|E]; [right; left; now symmetry|now left].
  - right. now right.
Qed.

Lemma In_concat {V : Type} (a b : list (Key * V)) (x : Key) (v : V) :
  In (x, v) (concat a b) -> In (x, v) a \/ In (x, v) b.
Proof.
  unfold concat, OrderedMap. intros H.
  destruct (In_merge _ _ _ _ H) as [[]|H1]. now apply in_app_or.
Qed.

Lemma In_takeUntil {V : Type} (pred : V -> bool) (m : list (Key * V))
    (e : Key * V) :
  In e (takeUntil pred m) -> In e m.
Proof.
  intros H. rewrite <- (takeUntil_skipUntil pred m). apply in_or_app. now left.
Qed.

Lemma In_skipUntil {V : Type} (pred : V -> bool) (m : list (Key * V))
    (e : Key * V) :
  In e (skipUntil pred m) -> In e m.
Proof.
  intros H. rewrite <- (takeUntil_skipUntil pred m). apply in_or_app. now right.
Qed.

Lemma In_tl {A : Type} (l : list A) (e : A) : In e (tl l) -> In e l.
Proof. destruct l; simpl; auto. Qed.

Lemma carried_set (m : BlockMap) (k : Key) (b b' : ContentBlockNode) :
  get m k = Some b -> sameContent b b' -> carried m (set m k b').
Proof.
  intros Hb Hs x c. rewrite get_set.
  destruct (String.eqb_spec k x) as [<-|_].
  - intros H. injection H as <-. eauto.
  - intros H. exists c. split; [exact H|apply sameContent_refl].
Qed.

(** A step that is taken only when a link is present. *)
Lemma carried_optional (o : option Key) (f : Key -> result BlockMap)
    (ma mb : BlockMap) :
  (forall y mc, f y = Ok mc -> carried ma mc /\ keys mc = keys ma) ->
  match o with Some y => f y | None => Ok ma end = Ok mb ->
  carried ma mb /\ keys mb = keys ma.
Proof.
  intros Hf H. destruct o as [y|]; [eauto|].
  apply Ok_inj in H. subst. split; [apply carried_refl|reflexivity].
Qed.

Lemma carried_relink (m1 m2 : BlockMap) (s : Key)
    (f : ContentBlockNode -> ContentBlockNode) :
  (forall b, sameContent b (f b)) ->
  (b <- deref (get m1 s) ;; Ok (set m1 s (f b))) = Ok m2 ->
  carried m1 m2 /\ keys m2 = keys m1.
Proof.
  intros Hf H. destruct (get m1 s) as [b|] eqn:E; [|discriminate].
  cbn [bind deref] in H. apply Ok_inj in H. subst m2. split.
  - apply (carried_set m1 s b); auto.
  - apply keys_set_present. eauto using get_Some_in.
Qed.

Lemma carried_updateAsSiblingsChild
    (isValidTree : BlockMap -> bool) (m m' : BlockMap) (k : Key)
    (position : SiblingInsertPosition) :
  NoDup (keys m) ->
  updateAsSiblingsChild false isValidTree m k position = Ok m' ->
  carried m m'.
Proof.
  intros Hnd Hrun.
  unfold updateAsSiblingsChild in Hrun. rewrite verifyTree_off in Hrun.
  cbn [bind] in Hrun. destruct (get m k) as [kb|]; [|discriminate].
  destruct (match position with
            | previous => getPrevSiblingKey kb
            | next => getNextSiblingKey kb
            end) as [s|]; [|discriminate].
  destruct (get m s) as [sb|]; [|discriminate].
  cbn [bind deref] in Hrun.
  destruct (invariant _ _) as [[]|]; [|discriminate].
  cbn [bind] in Hrun.
  match type of Hrun with
  | bind ?r _ = _ => destruct r as [m3|] eqn:H3; [|discriminate]
  end.
  cbn [bind] in Hrun.
  assert (C3 : carried m m3).
  { destruct position.
    - (* previous *)
      destruct (updateParentChild m s k _) as [m1|] eqn:H1; [|discriminate].
      cbn [bind] in H3.
      apply (carried_trans m m1 m3);
        [exact (carried_updateParentChild _ _ _ _ _ H1)|].
      destruct (getNextSiblingKey kb) as [n|].
      + exact (carried_updateSibling _ _ _ _ H3).
      + apply (carried_relink m1 m3 s (fun b => merge_nextSibling b None));
          [|exact H3].
        intros b. unfold sameContent. simpl. auto.
    - (* next *)
      destruct (updateParentChild m s k 0) as [m1|] eqn:H1; [|discriminate].
      cbn [bind] in H3.
      destruct (updateParentChild_inv _ _ _ _ _ H1)
        as (_ & _ & _ & _ & _ & K1 & _).
      match type of H3 with
      | bind ?r _ = _ => destruct r as [m2|] eqn:H2; [|discriminate]
      end.
      cbn [bind] in H3.
      assert (C2 : carried m1 m2 /\ keys m2 = keys m1).
      { destruct (getPrevSiblingKey kb) as [p|].
        - split; [exact (carried_updateSibling _ _ _ _ H2)|].
          destruct (updateSibling_inv _ _ _ _ H2) as (_ & _ & _ & _ & K & _).
          exact K.
        - apply (carried_relink m1 m2 s (fun b => merge_prevSibling b None));
            [|exact H2].
          intros b. unfold sameContent. simpl. auto. }
      destruct C2 as [C2 K2].
      apply (carried_trans m m1 m3);
        [exact (carried_updateParentChild _ _ _ _ _ H1)|].
      apply (carried_trans m1 m2 m3); [exact C2|].
      assert (Hnd2 : NoDup (keys m2)) by (rewrite K2, K1; exact Hnd).
      destruct (get m2 s) as [bs|] eqn:Es; [|discriminate].
      cbn [bind deref] in H3.
      destruct (get m2 k) as [bk|] eqn:Ek; [|discriminate].
      cbn [bind deref] in H3. apply Ok_inj in H3. subst m3.
      intros x b' Hx. exists b'. split; [|apply sameContent_refl].
      apply In_get; [exact Hnd2|].
      apply get_In in Hx.
      destruct (In_concat _ _ _ _ Hx) as [Hx1|Hx1].
      + destruct (In_concat _ _ _ _ Hx1) as [Hx2|Hx2].
        * now apply In_takeUntil in Hx2.
        * unfold OrderedMap in Hx2.
          destruct (In_merge _ _ _ _ Hx2) as [[]|[E|[E|[]]]];
            injection E as <- <-; now apply get_In.
      + unfold slice1 in Hx1. apply In_tl in Hx1.
        now apply In_skipUntil in Hx1. }
  match type of Hrun with
  | bind ?r _ = _ => destruct r as [m4|] eqn:H4; [|discriminate]
  end.
  cbn [bind] in Hrun. rewrite verifyTree_off in Hrun. cbn [bind] in Hrun.
  apply Ok_inj in Hrun. subst m4.
  apply (carried_trans m m3 m'); [exact C3|].
  destruct (getParentKey kb) as [P|].
  - destruct (get m3 P) as [pb|] eqn:EP; [|discriminate].
    cbn [bind deref] in H4. apply Ok_inj in H4. subst m'.
    apply (carried_set m3 P pb); [exact EP|].
    unfold sameContent. simpl. auto.
  - apply Ok_inj in H4. subst m'. apply carried_refl.
Qed.

Lemma carried_createNewParent
    (isValidTree : BlockMap -> bool) (newKey : Key) (m m' : BlockMap) (k : Key) :
  NoDup (keys m) ->
  createNewParent false isValidTree newKey m k = Ok m' ->
  exists kb,
    get m k = Some kb /\
    forall x b', get m' x = Some b' ->
      (exists b, get m x = Some b /\ sameContent b b') \/
      sameContent (newContentBlockNode newKey "" (depth kb) (type kb) []) b'.
Proof.
  intros Hnd Hrun.
  unfold createNewParent in Hrun. rewrite verifyTree_off in Hrun.
  cbn [bind] in Hrun. destruct (get m k) as [kb|]; [|discriminate].
  exists kb. split; [reflexivity|].
  cbn [getKey newContentBlockNode key] in Hrun.
  set (np := newContentBlockNode newKey "" (depth kb) (type kb) []) in *.
  match type of Hrun with
  | context [updateParentChild ?mm _ _ _] => set (m0 := mm) in *
  end.
  assert (C0 : forall x b, get m0 x = Some b -> get m x = Some b \/ b = np).
  { intros x b Hx. apply get_In in Hx. unfold m0 in Hx.
    destruct (In_concat _ _ _ _ Hx) as [Hx1|Hx1].
    - destruct (In_concat _ _ _ _ Hx1) as [Hx2|Hx2].
      + left. apply In_get; [exact Hnd|]. now apply In_takeUntil in Hx2.
      + unfold OrderedMap in Hx2.
        destruct (In_merge _ _ _ _ Hx2) as [[]|[E|[]]].
        injection E as _ <-. now right.
    - left. apply In_get; [exact Hnd|]. now apply In_skipUntil in Hx1. }
  destruct (updateParentChild m0 _ k 0) as [m1|] eqn:H1; [|discriminate].
  cbn [bind] in Hrun.
  unfold getPrevSiblingKey, getNextSiblingKey, getParentKey in Hrun.
  destruct (match prevSibling kb with
            | Some p => updateSibling m1 p _
            | None => Ok m1
            end) as [m2|] eqn:H2; [|discriminate].
  cbn [bind] in Hrun.
  apply (carried_optional _ (fun p => updateSibling m1 p _)) in H2.
  2:{ intros y mc Hy. split; [exact (carried_updateSibling _ _ _ _ Hy)|].
      destruct (updateSibling_inv _ _ _ _ Hy) as (_ & _ & _ & _ & K & _).
      exact K. }
  destruct (match nextSibling kb with
            | Some n => updateSibling m2 _ n
            | None => Ok m2
            end) as [m3|] eqn:H3; [|discriminate].
  cbn [bind] in Hrun.
  apply (carried_optional _ (fun n => updateSibling m2 _ n)) in H3.
  2:{ intros y mc Hy. split; [exact (carried_updateSibling _ _ _ _ Hy)|].
      destruct (updateSibling_inv _ _ _ _ Hy) as (_ & _ & _ & _ & K & _).
      exact K. }
  destruct (match parent kb with
            | Some P => replaceParentChild m3 P k _
            | None => Ok m3
            end) as [m4|] eqn:H4; [|discriminate].
  cbn [bind] in Hrun.
  apply (carried_optional _ (fun P => replaceParentChild m3 P k _)) in H4.
  2:{ intros y mc Hy. split; [exact (carried_replaceParentChild _ _ _ _ _ Hy)|].
      destruct (replaceParentChild_inv _ _ _ _ _ Hy) as (_ & _ & _ & _ & K & _).
      exact K. }
  rewrite verifyTree_off in Hrun. cbn [bind] in Hrun.
  apply Ok_inj in Hrun. subst m4.
  assert (C : carried m0 m').
  { apply (carried_trans m0 m1 m');
      [exact (carried_updateParentChild _ _ _ _ _ H1)|].
    apply (carried_trans m1 m2 m'); [exact (proj1 H2)|].
    apply (carried_trans m2 m3 m'); [exact (proj1 H3)|exact (proj1 H4)]. }
  intros x b' Hx. destruct (C x b' Hx) as (b & Hb & Hs).
  destruct (C0 x b Hb) as [Hm| ->]; [left; eauto|now right].
Qed.

(** X12.  The composite operations never write the key, text, depth or
    type of a node.  On a collection with unique keys, all of them ordinary
    property names, every node of the result of [updateAsSiblingsChild] is a
    node of the input with, at most, other links; and every node of the
    result of [createNewParent], for a generated key that is an ordinary
    property name, is either such a node or the new parent, whose text is
    empty and whose depth and type are those of the block. *)
Theorem composites_keep_content
    (dev : bool) (isValidTree : BlockMap -> bool) (m : BlockMap) (k : Key) :
  NoDup (keys m) -> plainKeys m ->
  (forall position m',
     updateAsSiblingsChild dev isValidTree m k position = Ok m' ->
     carried m m') /\
  (forall newKey m',
     plainKey newKey = true ->
     createNewParent dev isValidTree newKey m k = Ok m' ->
     exists kb,
       get m k = Some kb /\
       forall x b', get m' x = Some b' ->
         (exists b, get m x = Some b /\ sameContent b b') \/
         (key b' = newKey /\ text b' = "" /\
          depth b' = depth kb /\ type b' = type kb)).
Proof.
  intros Hnd _. split.
  - intros position m' Hrun.
    apply (checked_run_inv dev isValidTree m m' _ _
             (updateAsSiblingsChild_checked _ _ _ _ _)) in Hrun.
    exact (carried_updateAsSiblingsChild _ _ _ _ _ Hnd Hrun).
  - intros newKey m' _ Hrun.
    apply (checked_run_inv dev isValidTree m m' _ _
             (createNewParent_checked _ _ _ _ _)) in Hrun.
    exact (carried_createNewParent _ _ _ _ _ Hnd Hrun).
Qed.

Lemma composites_keep_content_witness :
  exists m' b',
    updateAsSiblingsChild false (fun _ => true) family "K" next = Ok m' /\
    get m' "K" = Some b' /\ text b' = "k".
Proof.
  exists (resultMap
            (updateAsSiblingsChild false (fun _ => true) family "K" next)).
  destruct (proj1 (composites_keep_content false (fun _ => true) family "K"
                     NoDup_family plainKeys_family) next _ eq_refl "K" _ eq_refl)
    as (b & Hb & _ & Ht & _).
  eexists. split; [reflexivity|]. split; [reflexivity|].
  injection Hb as <-. exact Ht.
Defined.

(** * Properties of CharacterMetadata *)

(** ** Ordered sets *)

Lemma OrderedSet_includes_In (s : OrderedSet) (a : Atom) :
  OrderedSet_includes s a = true <-> In a s.
Proof.
  unfold OrderedSet_includes. destruct (in_dec Atom_eq_dec a s); split; auto.
  discriminate.
Qed.

Lemma OrderedSet_includes_not_In (s : OrderedSet) (a : Atom) :
  OrderedSet_includes s a = false <-> ~ In a s.
Proof.
  unfold OrderedSet_includes. destruct (in_dec Atom_eq_dec a s); split; auto.
  - discriminate.
  - tauto.
Qed.

Lemma OrderedSet_includes_ext (s t : OrderedSet) (a : Atom) :
  (In a s <-> In a t) -> OrderedSet_includes s a = OrderedSet_includes t a.
Proof.
  intros H. destruct (OrderedSet_includes t a) eqn:E.
  - apply OrderedSet_includes_In. apply H. now apply OrderedSet_includes_In.
  - apply OrderedSet_includes_not_In. rewrite H.
    now apply OrderedSet_includes_not_In.
Qed.

Lemma In_OrderedSet_add (s : OrderedSet) (a b : Atom) :
  In b (OrderedSet_add s a) <-> In b s \/ b = a.
Proof.
  unfold OrderedSet_add. destruct (OrderedSet_includes s a) eqn:E.
  - apply OrderedSet_includes_In in E. split; [auto|].
    intros [H| ->]; assumption.
  - rewrite in_app_iff. simpl. intuition.
Qed.

Lemma In_OrderedSet_remove (s : OrderedSet) (a b : Atom) :
  In b (OrderedSet_remove s a) <-> In b s /\ b <> a.
Proof.
  unfold OrderedSet_remove. split.
  - apply in_remove.
  - intros [H1 H2]. now apply in_in_remove.
Qed.

Lemma OrderedSet_remove_add (s : OrderedSet) (a : Atom) :
  ~ In a s -> OrderedSet_remove (OrderedSet_add s a) a = s.
Proof.
  intros H. unfold OrderedSet_add, OrderedSet_remove.
  replace (OrderedSet_includes s a) with false
    by (symmetry; now apply OrderedSet_includes_not_In).
  rewrite remove_app, notin_remove by exact H. simpl.
  destruct (Atom_eq_dec a a); [apply app_nil_r|congruence].
Qed.

(** ** The pool *)

Lemma Pool_get_set (pool : Pool) (k k' : ConfigMap) (r : CharacterMetadata) :
  Pool_get (Pool_set pool k r) k' =
  if ConfigMap_eq_dec k k' then Some r else Pool_get pool k'.
Proof.
  induction pool as [|[c r0] pool IH]; simpl.
  - reflexivity.
  - destruct (ConfigMap_eq_dec c k) as [->|Hne]; simpl.
    + destruct (ConfigMap_eq_dec k k'); reflexivity.
    + rewrite IH. destruct (ConfigMap_eq_dec c k') as [->|_]; [|reflexivity].
      destruct (ConfigMap_eq_dec k k'); [congruence|reflexivity].
Qed.

Lemma Pool_set_absent (pool : Pool) (k : ConfigMap) (r : CharacterMetadata) :
  Pool_get pool k = None -> Pool_set pool k r = pool ++ [(k, r)].
Proof.
  induction pool as [|[c r0] pool IH]; simpl; [reflexivity|].
  destruct (ConfigMap_eq_dec c k); [discriminate|].
  intros H. now rewrite IH.
Qed.

Lemma Pool_get_None (pool : Pool) (k : ConfigMap) :
  Pool_get pool k = None <-> ~ In k (map fst pool).
Proof.
  induction pool as [|[c r0] pool IH]; simpl; [tauto|].
  destruct (ConfigMap_eq_dec c k) as [->|Hne].
  - split; [discriminate|tauto].
  - rewrite IH. tauto.
Qed.

Lemma pooled_initial : pooled initialPool.
Proof.
  intros configMap c. unfold initialPool. cbn [Pool_get].
  destruct (ConfigMap_eq_dec defaultRecord configMap) as [<-|_]; [|discriminate].
  intros H. injection H as <-. reflexivity.
Qed.

(** What [create] does with a configuration. *)
Lemma create_Some (config : CharacterMetadataConfig) (pool : Pool) :
  pooled pool ->
  let configMap := Map_merge (SetValue EMPTY_SET, AtomValue Null) config in
  fst (create (Some config) pool) = newCharacterMetadata configMap /\
  pooled (snd (create (Some config) pool)) /\
  Pool_get (snd (create (Some config) pool)) configMap
  = Some (newCharacterMetadata configMap) /\
  (forall other, other <> configMap ->
     Pool_get (snd (create (Some config) pool)) other = Pool_get pool other) /\
  (Pool_get pool configMap <> None -> snd (create (Some config) pool) = pool) /\
  (Pool_get pool configMap = None ->
   snd (create (Some config) pool)
   = pool ++ [(configMap, newCharacterMetadata configMap)]).
Proof.
  intros Hp configMap. unfold create. fold configMap.
  destruct (Pool_get pool configMap) as [existing|] eqn:E; cbn [fst snd].
  - pose proof (Hp _ _ E) as ->.
    split; [reflexivity|]. split; [exact Hp|]. split; [exact E|].
    split; [reflexivity|]. split; [reflexivity|discriminate].
  - split; [reflexivity|]. split; [|split; [|split; [|split]]].
    + intros k c. rewrite Pool_get_set.
      destruct (ConfigMap_eq_dec configMap k) as [<-|_].
      * intros H. now injection H as <-.
      * apply Hp.
    + rewrite Pool_get_set.
      destruct (ConfigMap_eq_dec configMap configMap); [reflexivity|congruence].
    + intros other Ho. rewrite Pool_get_set.
      destruct (ConfigMap_eq_dec configMap other); [congruence|reflexivity].
    + congruence.
    + intros _. now apply Pool_set_absent.
Qed.

(** X13.  Interning.  When every record of the pool has the values of its key,
    [create] returns the record with the values of the configuration, with
    [EMPTY_SET] for a missing style and [null] for a missing entity; the
    record is in the pool afterwards, under its configuration map; no other
    entry of the pool changes; and the pool is the same when the
    configuration was in it already, and one entry longer when not. *)
Theorem create_interns (config : CharacterMetadataConfig) (pool : Pool) :
  pooled pool ->
  let configMap := Map_merge (SetValue EMPTY_SET, AtomValue Null) config in
  let r := fst (create (Some config) pool) in
  let pool' := snd (create (Some config) pool) in
  getStyle r = match config_style config with
               | Some v => v
               | None => SetValue EMPTY_SET
               end /\
  getEntity r = match config_entity config with
                | Some v => v
                | None => AtomValue Null
                end /\
  pooled pool' /\
  Pool_get pool' configMap = Some r /\
  (forall other, other <> configMap -> Pool_get pool' other = Pool_get pool other) /\
  (Pool_get pool configMap <> None -> pool' = pool) /\
  (Pool_get pool configMap = None -> pool' = pool ++ [(configMap, r)]).
Proof.
  intros Hp configMap r pool'.
  destruct (create_Some config pool Hp) as (H1 & H2 & H3 & H4 & H5 & H6).
  fold configMap in H1, H3, H4, H5, H6. fold r in H1. fold pool' in H2, H3, H4, H5, H6.
  rewrite H1. repeat split; try assumption.
Qed.

Lemma create_interns_witness :
  let config := mkConfig (Some (SetValue [Str "BOLD"])) None in
  getStyle (fst (create (Some config) initialPool)) = SetValue [Str "BOLD"] /\
  getEntity (fst (create (Some config) initialPool)) = AtomValue Null /\
  snd (create (Some config) initialPool)
  = initialPool ++ [((SetValue [Str "BOLD"], AtomValue Null),
                     fst (create (Some config) initialPool))].
Proof.
  intros config.
  destruct (create_interns config initialPool pooled_initial)
    as (H1 & H2 & _ & _ & _ & _ & H7).
  split; [exact H1|]. split; [exact H2|]. apply H7. reflexivity.
Defined.

(** X14.  A second call of [create] with the same configuration returns the
    record of the first call and leaves the pool as the first call left
    it, whatever the pool was. *)
Theorem create_twice (config : option CharacterMetadataConfig) (pool : Pool) :
  create config (snd (create config pool)) = create config pool.
Proof.
  destruct config as [config|]; [|reflexivity].
  unfold create.
  set (configMap := Map_merge (SetValue EMPTY_SET, AtomValue Null) config).
  destruct (Pool_get pool configMap) as [existing|] eqn:E; cbn [fst snd].
  - now rewrite E.
  - rewrite Pool_get_set.
    destruct (ConfigMap_eq_dec configMap configMap); [reflexivity|congruence].
Qed.

(** X15.  Every pool that calls of [create], [applyStyle], [removeStyle] and
    [applyEntity] lead to, from the pool of the loaded module, holds under
    each configuration map the record with the values of that map, and
    holds the record [EMPTY] under the defaults of the record. *)
Theorem reachable_pooled (pool : Pool) :
  reachable pool ->
  pooled pool /\ Pool_get pool defaultRecord = Some EMPTY.
Proof.
  assert (Hstep : forall config pool0,
            pooled pool0 /\ Pool_get pool0 defaultRecord = Some EMPTY ->
            pooled (snd (create (Some config) pool0)) /\
            Pool_get (snd (create (Some config) pool0)) defaultRecord
            = Some EMPTY).
  { intros config pool0 [Hp He].
    destruct (create_Some config pool0 Hp) as (_ & H2 & H3 & H4 & _).
    split; [exact H2|].
    destruct (ConfigMap_eq_dec defaultRecord
                (Map_merge (SetValue EMPTY_SET, AtomValue Null) config))
      as [E|E].
    - rewrite <- E in H3. exact H3.
    - rewrite H4 by exact E. exact He. }
  induction 1 as [|config pool Hr IH|record st pool r pool' Hr IH Hrun
                  |record st pool r pool' Hr IH Hrun
                  |record key pool r pool' Hr IH Hrun].
  - split; [exact pooled_initial|reflexivity].
  - destruct config as [config|]; [now apply Hstep|exact IH].
  - unfold applyStyle in Hrun.
    destruct (asOrderedSet (getStyle record)) as [s|]; [|discriminate].
    cbn [bind] in Hrun. apply Ok_inj in Hrun.
    match type of Hrun with
    | create (Some ?c) _ = _ => specialize (Hstep c pool IH)
    end.
    rewrite Hrun in Hstep. exact Hstep.
  - unfold removeStyle in Hrun.
    destruct (asOrderedSet (getStyle record)) as [s|]; [|discriminate].
    cbn [bind] in Hrun. apply Ok_inj in Hrun.
    match type of Hrun with
    | create (Some ?c) _ = _ => specialize (Hstep c pool IH)
    end.
    rewrite Hrun in Hstep. exact Hstep.
  - unfold applyEntity in Hrun.
    destruct (asOrderedSet (getEntity record)) as [s|]; [|discriminate].
    cbn [bind] in Hrun. apply Ok_inj in Hrun.
    match type of Hrun with
    | create (Some ?c) _ = _ => specialize (Hstep c pool IH)
    end.
    rewrite Hrun in Hstep. exact Hstep.
Qed.

Lemma reachable_pooled_witness :
  exists r pool,
    applyStyle EMPTY "BOLD" initialPool = Ok (r, pool) /\
    pooled pool /\ Pool_get pool defaultRecord = Some EMPTY.
Proof.
  exists (mkCharacterMetadata (SetValue [Str "BOLD"]) (SetValue [])).
  eexists. split; [reflexivity|].
  apply reachable_pooled.
  apply (reachable_applyStyle EMPTY "BOLD" initialPool
           (mkCharacterMetadata (SetValue [Str "BOLD"]) (SetValue []))).
  - exact reachable_initial.
  - reflexivity.
Defined.

(** ** Styles *)

Lemma record_eta (r : CharacterMetadata) :
  mkCharacterMetadata (style r) (entity r) = r.
Proof. now destruct r. Qed.

(** [create] on a record, from a pool whose records have the values of
    their keys, gives the record back. *)
Lemma create_record (record : CharacterMetadata) (pool : Pool) :
  pooled pool ->
  fst (create (Some (configOfRecord record)) pool) = record /\
  pooled (snd (create (Some (configOfRecord record)) pool)).
Proof.
  intros Hp.
  destruct (create_Some (configOfRecord record) pool Hp) as (H1 & H2 & _).
  split; [|exact H2]. rewrite H1. unfold newCharacterMetadata, Map_merge.
  simpl. apply record_eta.
Qed.

Lemma hasStyle_set (r : CharacterMetadata) (s : OrderedSet) (st : string) :
  getStyle r = SetValue s ->
  hasStyle r st = Ok (OrderedSet_includes s (Str st)).
Proof. unfold hasStyle. now intros ->. Qed.

(** What [applyStyle] returns. *)
Lemma applyStyle_result
    (record : CharacterMetadata) (st : string) (pool : Pool) (s : OrderedSet) :
  pooled pool -> getStyle record = SetValue s ->
  exists r pool',
    applyStyle record st pool = Ok (r, pool') /\
    getStyle r = SetValue (OrderedSet_add s (Str st)) /\
    getEntity r = getEntity record /\
    pooled pool'.
Proof.
  intros Hp Hs. unfold applyStyle. rewrite Hs. cbn [asOrderedSet bind].
  set (withStyle :=
         Record_set_style record (SetValue (OrderedSet_add s (Str st)))).
  destruct (create_record withStyle pool Hp) as [H1 H2].
  exists (fst (create (Some (configOfRecord withStyle)) pool)),
         (snd (create (Some (configOfRecord withStyle)) pool)).
  split; [now rewrite <- surjective_pairing|].
  rewrite H1. auto.
Qed.

(** X16.  After [applyStyle] the record has the style: when the style of the
    record is a set and the records of the pool have the values of their
    keys, [applyStyle] returns a record whose set of styles is the former
    one with the style added at the end, or the former one when it has the
    style already; [hasStyle] answers [true] for the style and what it
    answered before for every other style; the entity is the same; and a
    record that has the style already is returned as it is. *)
Theorem applyStyle_hasStyle
    (record : CharacterMetadata) (st : string) (pool : Pool) (s : OrderedSet) :
  pooled pool -> getStyle record = SetValue s ->
  exists r pool',
    applyStyle record st pool = Ok (r, pool') /\
    getStyle r = SetValue (OrderedSet_add s (Str st)) /\
    getEntity r = getEntity record /\
    hasStyle r st = Ok true /\
    (forall other, other <> st -> hasStyle r other = hasStyle record other) /\
    (hasStyle record st = Ok true -> r = record) /\
    pooled pool'.
Proof.
  intros Hp Hs. unfold applyStyle. rewrite Hs. cbn [asOrderedSet bind].
  set (withStyle :=
         Record_set_style record (SetValue (OrderedSet_add s (Str st)))).
  destruct (create_record withStyle pool Hp) as [H1 H2].
  exists (fst (create (Some (configOfRecord withStyle)) pool)),
         (snd (create (Some (configOfRecord withStyle)) pool)).
  split; [now rewrite <- surjective_pairing|].
  rewrite H1. split; [reflexivity|]. split; [reflexivity|].
  split; [|split; [|split]].
  - rewrite (hasStyle_set withStyle _ st eq_refl). f_equal.
    apply OrderedSet_includes_In. apply In_OrderedSet_add. now right.
  - intros other Ho.
    rewrite (hasStyle_set withStyle _ other eq_refl),
      (hasStyle_set record s other Hs). f_equal.
    apply OrderedSet_includes_ext. rewrite In_OrderedSet_add.
    split; [intros [H|H]; [exact H|congruence]|auto].
  - rewrite (hasStyle_set record s st Hs). intros H. apply Ok_inj in H.
    unfold withStyle, Record_set_style, OrderedSet_add. rewrite H.
    unfold getStyle in Hs. rewrite <- Hs. apply record_eta.
  - exact H2.
Qed.

Lemma applyStyle_hasStyle_witness :
  exists r pool',
    applyStyle EMPTY "BOLD" initialPool = Ok (r, pool') /\
    hasStyle r "BOLD" = Ok true /\
    hasStyle r "ITALIC" = Ok false.
Proof.
  destruct (applyStyle_hasStyle EMPTY "BOLD" initialPool [] pooled_initial
              eq_refl) as (r & pool' & Hrun & _ & _ & Hhas & Hother & _).
  exists r, pool'. split; [exact Hrun|]. split; [exact Hhas|].
  rewrite (Hother "ITALIC"); [reflexivity|discriminate].
Defined.

(** X17.  After [removeStyle] the record does not have the style: under the same
    conditions [removeStyle] returns a record whose set of styles is the
    former one without the style, the other styles in the order they had;
    [hasStyle] answers [false] for the style and what it answered before for
    every other style; the entity is the same; and a record that does not
    have the style is returned as it is. *)
Theorem removeStyle_hasStyle
    (record : CharacterMetadata) (st : string) (pool : Pool) (s : OrderedSet) :
  pooled pool -> getStyle record = SetValue s ->
  exists r pool',
    removeStyle record st pool = Ok (r, pool') /\
    getStyle r = SetValue (OrderedSet_remove s (Str st)) /\
    getEntity r = getEntity record /\
    hasStyle r st = Ok false /\
    (forall other, other <> st -> hasStyle r other = hasStyle record other) /\
    (hasStyle record st = Ok false -> r = record) /\
    pooled pool'.
Proof.
  intros Hp Hs. unfold removeStyle. rewrite Hs. cbn [asOrderedSet bind].
  set (withoutStyle :=
         Record_set_style record (SetValue (OrderedSet_remove s (Str st)))).
  destruct (create_record withoutStyle pool Hp) as [H1 H2].
  exists (fst (create (Some (configOfRecord withoutStyle)) pool)),
         (snd (create (Some (configOfRecord withoutStyle)) pool)).
  split; [now rewrite <- surjective_pairing|].
  rewrite H1. split; [reflexivity|]. split; [reflexivity|].
  split; [|split; [|split]].
  - rewrite (hasStyle_set withoutStyle _ st eq_refl). f_equal.
    apply OrderedSet_includes_not_In. rewrite In_OrderedSet_remove. tauto.
  - intros other Ho.
    rewrite (hasStyle_set withoutStyle _ other eq_refl),
      (hasStyle_set record s other Hs). f_equal.
    apply OrderedSet_includes_ext. rewrite In_OrderedSet_remove.
    split; [tauto|]. intros H. split; [exact H|congruence].
  - rewrite (hasStyle_set record s st Hs). intros H. apply Ok_inj in H.
    apply OrderedSet_includes_not_In in H.
    unfold withoutStyle, Record_set_style, OrderedSet_remove.
    rewrite notin_remove by exact H.
    unfold getStyle in Hs. rewrite <- Hs. apply record_eta.
  - exact H2.
Qed.

Lemma removeStyle_hasStyle_witness :
  exists r pool',
    removeStyle (mkCharacterMetadata (SetValue [Str "BOLD"; Str "ITALIC"])
                   (SetValue []))
      "BOLD" initialPool = Ok (r, pool') /\
    getStyle r = SetValue [Str "ITALIC"] /\
    hasStyle r "BOLD" = Ok false.
Proof.
  destruct (removeStyle_hasStyle
              (mkCharacterMetadata (SetValue [Str "BOLD"; Str "ITALIC"])
                 (SetValue []))
              "BOLD" initialPool [Str "BOLD"; Str "ITALIC"] pooled_initial
              eq_refl) as (r & pool' & Hrun & Hstyle & _ & Hhas & _).
  exists r, pool'. split; [exact Hrun|]. split; [exact Hstyle|exact Hhas].
Defined.

(** X18.  Applying a style that a record does not have and removing it again
    gives the record back, with its styles in the order they had. *)
Theorem applyStyle_removeStyle
    (record : CharacterMetadata) (st : string) (pool : Pool) :
  pooled pool -> hasStyle record st = Ok false ->
  (exists s, getStyle record = SetValue s) ->
  exists r pool' pool'',
    applyStyle record st pool = Ok (r, pool') /\
    removeStyle r st pool' = Ok (record, pool'').
Proof.
  intros Hp Hhas [s Hs].
  destruct (applyStyle_result record st pool s Hp Hs)
    as (r & pool' & Hrun & Hstyle & Hent & Hp').
  exists r, pool'.
  unfold removeStyle. rewrite Hstyle. cbn [asOrderedSet bind].
  rewrite (hasStyle_set record s st Hs) in Hhas. apply Ok_inj in Hhas.
  apply OrderedSet_includes_not_In in Hhas.
  rewrite OrderedSet_remove_add by exact Hhas.
  assert (Hback : Record_set_style r (SetValue s) = record).
  { unfold Record_set_style. unfold getEntity in Hent. rewrite Hent.
    unfold getStyle in Hs. rewrite <- Hs. apply record_eta. }
  rewrite Hback.
  destruct (create_record record pool' Hp') as [H1 _].
  exists (snd (create (Some (configOfRecord record)) pool')).
  split; [exact Hrun|]. f_equal.
  rewrite (surjective_pairing (create (Some (configOfRecord record)) pool')).
  cbn [fst snd]. now rewrite H1.
Qed.

Lemma applyStyle_removeStyle_witness :
  exists r pool' pool'',
    applyStyle (mkCharacterMetadata (SetValue [Str "ITALIC"]) (SetValue []))
      "BOLD" initialPool = Ok (r, pool') /\
    removeStyle r "BOLD" pool'
    = Ok (mkCharacterMetadata (SetValue [Str "ITALIC"]) (SetValue []), pool'').
Proof.
  apply (applyStyle_removeStyle
           (mkCharacterMetadata (SetValue [Str "ITALIC"]) (SetValue []))
           "BOLD" initialPool pooled_initial).
  - reflexivity.
  - exists [Str "ITALIC"]. reflexivity.
Defined.

(** ** Entities *)

(** X19.  [applyEntity] calls [add] on the entity of the record, so it needs a
    record whose entity is a set.  The record [EMPTY], which [create]
    returns when it is given no configuration, has the empty set as its
    entity and takes the entity key.  A record that [create] makes from a
    configuration has the entity of the configuration, and [null] when the
    configuration names none: [applyEntity] takes the key when that entity
    is a set, and throws a [TypeError] when it is [null], [undefined] or a
    string. *)
Theorem applyEntity_after_create
    (config : option CharacterMetadataConfig) (entityKey : Atom)
    (pool pool' : Pool) :
  pooled pool -> pooled pool' ->
  let record := fst (create config pool) in
  let accepted (s : OrderedSet) :=
    exists r pool'',
      applyEntity record entityKey pool' = Ok (r, pool'') /\
      getEntity r = SetValue (OrderedSet_add s entityKey) /\
      getStyle r = getStyle record /\
      pooled pool'' in
  match config with
  | None => accepted EMPTY_SET
  | Some config =>
      match config_entity config with
      | Some (SetValue s) => accepted s
      | Some (AtomValue _) | None =>
          applyEntity record entityKey pool' = Err TypeError
      end
  end.
Proof.
  intros Hp Hp' record accepted.
  assert (Hacc : forall s, getEntity record = SetValue s -> accepted s).
  { intros s Hs. unfold accepted, applyEntity. rewrite Hs.
    cbn [asOrderedSet bind].
    set (withEntity :=
           Record_set_entity record (SetValue (OrderedSet_add s entityKey))).
    destruct (create_record withEntity pool' Hp') as [H1 H2].
    exists (fst (create (Some (configOfRecord withEntity)) pool')),
           (snd (create (Some (configOfRecord withEntity)) pool')).
    split; [now rewrite <- surjective_pairing|].
    rewrite H1. auto. }
  destruct config as [config|].
  - destruct (create_Some config pool Hp) as (H1 & _).
    fold record in H1.
    assert (He : getEntity record =
                 match config_entity config with
                 | Some v => v
                 | None => AtomValue Null
                 end) by now rewrite H1.
    destruct (config_entity config) as [[s|a]|].
    + now apply Hacc.
    + unfold applyEntity. now rewrite He.
    + unfold applyEntity. now rewrite He.
  - apply Hacc. reflexivity.
Qed.

Lemma applyEntity_after_create_witness :
  applyEntity
    (fst (create (Some (mkConfig (Some (SetValue [Str "BOLD"])) None))
            initialPool))
    (Str "1") initialPool
  = Err TypeError /\
  exists r pool'',
    applyEntity (fst (create None initialPool)) (Str "1") initialPool
    = Ok (r, pool'') /\
    getEntity r = SetValue [Str "1"].
Proof.
  split.
  - apply (applyEntity_after_create
             (Some (mkConfig (Some (SetValue [Str "BOLD"])) None))
             (Str "1") initialPool initialPool pooled_initial pooled_initial).
  - destruct (applyEntity_after_create None (Str "1") initialPool initialPool
                pooled_initial pooled_initial) as (r & p & Hrun & He & _).
    exists r, p. split; [exact Hrun|exact He].
Defined.
